(** * gokvstore: the compaction engine (compaction.go)

    A shallow embedding of [compaction.go] and the properties of its
    bucket planner, its per-bucket merge pipeline and its deletion step.

    Conventions of the embedding.
    - [len(s)] of a Go slice is a non-negative [int]; it is modelled by
      [length] on [nat], and [len(files)/2] by [Nat.div].
    - A Go slice that may be [nil] is an [option (list _)] ([None] is
      [nil]); [len(nil) = 0] and slicing/ranging over [nil] behaves like
      the empty slice.
    - A slice is the list of its elements.  The slices [makeBuckets]
      cuts share the array of [c.files]; the in-place sort of a bucket
      is recorded in the bucket's own list ([b_files]) and not in
      [c_files], see [with_buckets].
    - [[]byte] keys and values are [string]s (sequences of 8-bit
      characters), raw file contents are [list byte].
    - [uint64] counters are [Z] reduced modulo [2^64].
    - An [error] value is its message; a [nil] error is [None].
    - Record fields carry the receiver's initial ([b_files], [c_files])
      because [bucket] and [Compactor] both have a field [files]. *)

From Stdlib Require Import String Ascii OrderedTypeEx.
From Stdlib Require Import ZArith Bool Arith Lia Sorted List.
From Stdlib Require Init.Byte.
From Equations Require Import Equations.
Import ListNotations.

Local Open Scope string_scope.
Local Open Scope list_scope.
Local Open Scope nat_scope.

(** ** Constants and data (compaction.go, lines 24-47) *)

Definition minBucketSize : nat := 2.
Definition maxBucketSize : nat := 8.

Definition error := string.

(** The configuration bundle handed to the file system. *)
Record Options := mkOptions {
  ReadOnly : bool;
  UseCompression : bool;
  SyncWrite : bool
}.

(** The part of [FileSystem] that [compaction.go] reads: [c.fs.path] and
    [c.fs.options]. *)
Record FileSystem := mkFS {
  path : string;
  options : Options
}.

Record bucket := mkBucket {
  b_files : list string;
  b_processed : bool
}.

Record Compactor := mkCompactor {
  c_fs : FileSystem;
  c_files : option (list string);
  c_buckets : list bucket
}.

Record compactionStats := mkStats {
  numFilesBeforeCompaction : nat;
  numFilesAfterCompaction : nat;
  numKeysBeforeCompaction : Z;
  numKeysAfterCompaction : Z;
  timeToCompactBucket : string;
  err : option error
}.

(** [len] and the elements of a possibly-nil slice. *)
Definition slice_elems {A} (s : option (list A)) : list A :=
  match s with
  | None => []
  | Some l => l
  end.

Definition slice_len {A} (s : option (list A)) : nat := length (slice_elems s).

(** ** The gate (lines 49-54) *)

Definition shouldCompact (c : Compactor) : bool :=
  match c_files c with
  | None => false
  | Some fl => minBucketSize <? length fl
  end.

(** ** The bucket planner (lines 77-85)

    [makeBuckets] calls itself on both halves of a list whose length is
    outside [minBucketSize, maxBucketSize].  Nothing in the function
    bounds the depth of these calls, so the embedding carries the depth
    still available as [fuel] and reports whether the call returned
    together with the compactor state reached ([c.buckets] is appended to
    in place, so the state is observable either way). *)

Inductive outcome (A : Type) : Type :=
| Returned (a : A)
| Exhausted (a : A).
Arguments Returned {A} a.
Arguments Exhausted {A} a.

Definition reached {A} (o : outcome A) : A :=
  match o with
  | Returned a => a
  | Exhausted a => a
  end.

Definition returned {A} (o : outcome A) : bool :=
  match o with
  | Returned _ => true
  | Exhausted _ => false
  end.

Definition append_bucket (c : Compactor) (b : bucket) : Compactor :=
  mkCompactor (c_fs c) (c_files c) (c_buckets c ++ [b]).

Fixpoint makeBuckets (fuel : nat) (c : Compactor) (files : list string)
  : outcome Compactor :=
  match fuel with
  | 0 => Exhausted c
  | S fuel' =>
      if (minBucketSize <=? length files) && (length files <=? maxBucketSize)
      then Returned (append_bucket c (mkBucket files false))
      else
        match makeBuckets fuel' c (firstn (length files / 2) files) with
        | Returned c1 => makeBuckets fuel' c1 (skipn (length files / 2) files)
        | Exhausted c1 => Exhausted c1
        end
  end.

(** The size bound a planned bucket must meet. *)
Definition in_bounds (b : bucket) : Prop :=
  minBucketSize <= length (b_files b) <= maxBucketSize.

Definition fresh (b : bucket) : Prop := b_processed b = false.

Definition sample_fs : FileSystem := mkFS "/db" (mkOptions false true false).

Definition sample_files : list string :=
  ["01"; "02"; "03"; "04"; "05"; "06"; "07"; "08"; "09"; "10"].

Definition sample_compactor : Compactor :=
  mkCompactor sample_fs (Some sample_files) [].


(** ** Chunk and merging iterators

    [NewChunkIterator] and [NewMergingIterator] are called by
    [compactBucket] (lines 116 and 125-128) but are declared in other
    files of the package. *)

(** A decoded record: key and value. *)
Definition record : Type := string * string.

(** Byte-wise lexicographic order on keys. *)
Definition key_lt (a b : string) : Prop := String.compare a b = Lt.

(** Modelled from the spec: the chunk iterator of section 4.2, a
    forward-only cursor over one segment's records in the order they
    were encoded, which tracks the count of keys seen.  The head of
    [pending] is the current record of a live iterator. *)
Record chunkIterator := mkChunkIterator {
  pending : list record;
  numKeys : Z
}.

Definition uint64 (z : Z) : Z := (z mod 2 ^ 64)%Z.

(** Modelled from the spec: the records of a segment start all pending
    and no key has been seen. *)
Definition chunkIteratorOf (records : list record) : chunkIterator :=
  mkChunkIterator records 0.

Definition head_key (it : chunkIterator) : option string :=
  match pending it with
  | [] => None
  | (k, _) :: _ => Some k
  end.

(** Advance a source that currently exposes key [k]; other sources are
    left where they are. *)
Definition advance_past (k : string) (it : chunkIterator) : chunkIterator :=
  match pending it with
  | [] => it
  | (k', _) :: rest =>
      if String.eqb k' k
      then mkChunkIterator rest (uint64 (numKeys it + 1))
      else it
  end.

Definition smaller (a : option string) (b : option string) : option string :=
  match a, b with
  | None, _ => b
  | _, None => a
  | Some x, Some y =>
      match String.compare y x with
      | Lt => Some y
      | _ => Some x
      end
  end.

(** The smallest current key among the live sources. *)
Definition min_key (srcs : list chunkIterator) : option string :=
  fold_right (fun it acc => smaller (head_key it) acc) None srcs.

(** The record exposed for key [k] by the most recent source that
    currently exposes [k]: sources are listed in the order produced by
    the ordering policy, and on a key collision the source sorted later
    is preferred (spec, sections 4.3 and 9). *)
Definition pick_step (k : string) (acc : option record) (it : chunkIterator)
  : option record :=
  match pending it with
  | [] => acc
  | (k', v) :: _ => if String.eqb k' k then Some (k', v) else acc
  end.

Definition pick (k : string) (srcs : list chunkIterator) : option record :=
  fold_left (pick_step k) srcs None.

(** Modelled from the spec: the merging iterator of section 4.3, holding
    the sources in recency order, the current output record and the
    running count of output keys. *)
Record mergingIterator := mkMergingIterator {
  sources : list chunkIterator;
  current : option record;
  mi_numKeysAfterCompaction : Z
}.

Definition NewMergingIterator (iters : list chunkIterator) : mergingIterator :=
  mkMergingIterator iters None 0.

(** Modelled from the spec: one step of the k-way merge.  Select the
    smallest current key; retain the record of the most recent source
    exposing it; advance every source exposing it; count one output
    key.  Returns false once all sources are exhausted. *)
Definition Next (mi : mergingIterator) : bool * mergingIterator :=
  match min_key (sources mi) with
  | None => (false, mi)
  | Some k =>
      (true,
       mkMergingIterator
         (map (advance_past k) (sources mi))
         (pick k (sources mi))
         (uint64 (mi_numKeysAfterCompaction mi + 1)))
  end.

Definition Key (mi : mergingIterator) : string :=
  match current mi with
  | Some (k, _) => k
  | None => ""
  end.

Definition Value (mi : mergingIterator) : string :=
  match current mi with
  | Some (_, v) => v
  | None => ""
  end.

(** Records still to be consumed over all sources. *)
Definition remaining (srcs : list chunkIterator) : nat :=
  fold_right (fun it n => length (pending it) + n) 0 srcs.

(** A segment's records are strictly increasing by key. *)
Definition sorted_source (it : chunkIterator) : Prop :=
  StronglySorted key_lt (map fst (pending it)).

(** The value a record list holds for [k]. *)
Fixpoint assoc (k : string) (rs : list record) : option string :=
  match rs with
  | [] => None
  | (k', v) :: rest => if String.eqb k' k then Some v else assoc k rest
  end.

(** The value of [k] in the most recent source holding [k]: the last
    such source in the list. *)
Definition latest_step (k : string) (acc : option string) (it : chunkIterator)
  : option string :=
  match assoc k (pending it) with
  | Some v => Some v
  | None => acc
  end.

Definition latest (k : string) (srcs : list chunkIterator) : option string :=
  fold_left (latest_step k) srcs None.

(** The records of [rs] with key [k], in order. *)
Definition with_key (k : string) (rs : list record) : list record :=
  filter (fun r => String.eqb (fst r) k) rs.

(** [k] is not above any current key of [srcs]. *)
Definition below_heads (k : string) (srcs : list chunkIterator) : Prop :=
  Forall (fun it => forall k', head_key it = Some k' -> ~ key_lt k' k) srcs.

(** *** Termination of the merge

    Each successful [Next] consumes a record; this is what makes the
    loop of lines 126-129 a definition. *)

Lemma smaller_some_l k acc : exists m, smaller (Some k) acc = Some m.
Proof.
  destruct acc as [y|]; cbn; [|eauto].
  destruct (String.compare y k); eauto.
Qed.

Lemma min_key_cons it srcs :
  min_key (it :: srcs) = smaller (head_key it) (min_key srcs).
Proof. reflexivity. Qed.

Lemma head_key_none it : head_key it = None <-> pending it = [].
Proof.
  unfold head_key. destruct (pending it) as [|[k v] rest]; split;
    congruence.
Qed.

Lemma min_key_none srcs :
  min_key srcs = None <-> Forall (fun it => pending it = []) srcs.
Proof.
  induction srcs as [|it srcs IH].
  - split; auto.
  - rewrite min_key_cons. destruct (head_key it) as [k|] eqn:E.
    + destruct (smaller_some_l k (min_key srcs)) as [m Hm]. rewrite Hm.
      split; [discriminate|].
      intros H. inversion H; subst.
      apply head_key_none in H2. congruence.
    + cbn [smaller]. rewrite IH. apply head_key_none in E. split.
      * intros H. constructor; auto.
      * intros H. inversion H; auto.
Qed.

(** [min_key] is the head key of one of the sources. *)
Lemma min_key_in srcs k :
  min_key srcs = Some k -> Exists (fun it => head_key it = Some k) srcs.
Proof.
  induction srcs as [|it srcs IH]; [discriminate|].
  rewrite min_key_cons.
  destruct (head_key it) as [x|] eqn:Hx; destruct (min_key srcs) as [y|] eqn:Hy;
    cbn [smaller]; intros H.
  - destruct (String.compare y x); inversion H; subst; auto.
  - inversion H; subst. auto.
  - right. auto.
  - discriminate.
Qed.

Lemma advance_past_length k it :
  length (pending (advance_past k it)) <= length (pending it).
Proof.
  unfold advance_past. destruct (pending it) as [|[k' v] rest] eqn:E.
  - rewrite E. auto.
  - destruct (String.eqb k' k); cbn; [lia|]. rewrite E. cbn. lia.
Qed.

Lemma advance_past_head k it :
  head_key it = Some k ->
  length (pending (advance_past k it)) < length (pending it).
Proof.
  unfold head_key, advance_past.
  destruct (pending it) as [|[k' v] rest] eqn:E; [discriminate|].
  intros H. inversion H; subst. rewrite String.eqb_refl. cbn. lia.
Qed.

Lemma remaining_advance_le k srcs :
  remaining (map (advance_past k) srcs) <= remaining srcs.
Proof.
  induction srcs as [|it srcs IH]; cbn; [lia|].
  pose proof (advance_past_length k it). fold (remaining srcs).
  fold (remaining (map (advance_past k) srcs)). lia.
Qed.

Lemma remaining_advance_lt k srcs :
  Exists (fun it => head_key it = Some k) srcs ->
  remaining (map (advance_past k) srcs) < remaining srcs.
Proof.
  induction 1 as [it srcs H|it srcs H IH]; cbn;
    fold (remaining srcs); fold (remaining (map (advance_past k) srcs)).
  - pose proof (advance_past_head k it H).
    pose proof (remaining_advance_le k srcs). lia.
  - pose proof (advance_past_length k it). lia.
Qed.

(** Every successful [Next] consumes at least one record. *)
Lemma Next_decreases mi mi' :
  Next mi = (true, mi') -> remaining (sources mi') < remaining (sources mi).
Proof.
  unfold Next. destruct (min_key (sources mi)) as [k|] eqn:E; [|discriminate].
  intros H. inversion H; subst; cbn.
  apply remaining_advance_lt, min_key_in, E.
Qed.

Definition inspect {A} (a : A) : {b : A | a = b} := exist _ a eq_refl.

(** The records a merging iterator yields when [Next] is called until
    it returns false: the sequence the loop of lines 126-129 walks. *)
Equations? merged (mi : mergingIterator) : list record
  by wf (remaining (sources mi)) lt :=
  merged mi with inspect (Next mi) => {
    | exist _ (true, mi') _ => (Key mi', Value mi') :: merged mi';
    | exist _ (false, _) _ => [] }.
Proof. apply Next_decreases. assumption. Qed.

(** ** Collaborators outside compaction.go

    The file system, the segment writer, the filter library, the clock
    and the ordering policy are used by [compaction.go] through the
    calls listed here; their code is elsewhere.  The development is
    parametric in them: [World] is whatever state they keep (the disk,
    open handles, the clock), and each call maps a world to a result and
    a new world. *)

Class Backend := {
  World : Type;
  SSTable : Type;
  Writer : Type;
  (** [path.Join(dir, f) + dataFileExt] *)
  dataFileName : string -> string -> string;
  (** [GetDataFiles(path)] *)
  GetDataFiles : string -> World -> option (list string);
  (** the order in which [sort.Sort(ByTime{files, DefaultNameFormat})]
      leaves [files] *)
  sortByTime : list string -> list string;
  (** [ioutil.ReadFile(fName)] *)
  ReadFile : string -> World -> (error + list Byte.byte) * World;
  (** the records [NewChunkIterator(data)] iterates over, up to the
      point where it stops *)
  decodeChunk : list Byte.byte -> list record;
  (** [c.fs.NewSSTable()] *)
  NewSSTable : FileSystem -> World -> (error + SSTable) * World;
  (** [NewWriter(sst, useCompression)] *)
  NewWriter : SSTable -> bool -> Writer;
  (** [w.Set(key, value)] *)
  writerSet : Writer -> string -> string -> World -> World;
  (** [filter.WriteTo(sst.filterfile)], for a filter holding [keys] *)
  filterWriteTo : list string -> SSTable -> World -> option error * World;
  (** [sst.filterfile.Close()] *)
  filterfileClose : SSTable -> World -> World;
  (** [w.Close()] *)
  writerClose : Writer -> World -> option error * World;
  (** [c.fs.DeleteSSTable(f)] *)
  DeleteSSTable : FileSystem -> string -> World -> World;
  (** [time.Now()], in nanoseconds *)
  now : World -> Z;
  (** [fmt.Sprintf("%s", elapsed)] *)
  showDuration : Z -> string
}.

(** Calls that leave [compaction.go], in the order they are made. *)
Inductive event : Type :=
| EvReadFile (name : string) (e : option error)
| EvNewSSTable (fs : FileSystem) (e : option error)
| EvNewWriter (useCompression : bool)
| EvSet (k v : string)
| EvFilterWriteTo (keys : list string) (e : option error)
| EvFilterfileClose
| EvWriterClose (e : option error)
| EvDeleteSSTable (f : string).

(** What [Compact] prints. *)
Inductive printed : Type :=
| NotEnoughSSTables
| Report (cs : compactionStats).

Definition failed (e : event) : bool :=
  match e with
  | EvReadFile _ (Some _) => true
  | EvNewSSTable _ (Some _) => true
  | EvFilterWriteTo _ (Some _) => true
  | EvWriterClose (Some _) => true
  | _ => false
  end.

Definition is_delete (e : event) : bool :=
  match e with
  | EvDeleteSSTable _ => true
  | _ => false
  end.

Definition set_event (r : record) : event := EvSet (fst r) (snd r).

(** What the worker may do outside: no deletion, segments created on
    the compactor's own file system, writers opened with its
    compression flag. *)
Definition worker_event (fs : FileSystem) (e : event) : Prop :=
  match e with
  | EvDeleteSSTable _ => False
  | EvNewSSTable fs' _ => fs' = fs
  | EvNewWriter uc => uc = UseCompression (options fs)
  | _ => True
  end.

(** Segments created and writers opened with the options of
    [NewCompactor]. *)
Definition fixed_configuration (e : event) : Prop :=
  match e with
  | EvNewSSTable fs _ => options fs = mkOptions false true false
  | EvNewWriter useCompression => useCompression = true
  | _ => True
  end.

(** The [DeleteSSTable] calls owed to a bucket and its record. *)
Definition deletions_for (bc : bucket * compactionStats) : list event :=
  match err (snd bc) with
  | None => map EvDeleteSSTable (b_files (fst bc))
  | Some _ => []
  end.

Section Compaction.

Context {B : Backend}.

(** The state the code runs against: the collaborators' world and the
    calls made so far. *)
Record Sys := mkSys {
  world : World;
  log : list event
}.

Definition M (A : Type) : Type := Sys -> A * Sys.

Definition ret {A} (a : A) : M A := fun s => (a, s).

Definition bind {A C} (m : M A) (k : A -> M C) : M C :=
  fun s => let (a, s') := m s in k a s'.

Notation "x <- m ;; k" := (bind m (fun x => k))
  (at level 61, m at next level, right associativity).
Notation "m ;;; k" := (bind m (fun _ => k))
  (at level 61, right associativity).

Definition err_of {A} (r : error + A) : option error :=
  match r with
  | inl e => Some e
  | inr _ => None
  end.

Definition readFile (name : string) : M (error + list Byte.byte) :=
  fun s =>
    let (r, w) := ReadFile name (world s) in
    (r, mkSys w (log s ++ [EvReadFile name (err_of r)])).

Definition newSSTable (fs : FileSystem) : M (error + SSTable) :=
  fun s =>
    let (r, w) := NewSSTable fs (world s) in
    (r, mkSys w (log s ++ [EvNewSSTable fs (err_of r)])).

Definition newWriter (sst : SSTable) (useCompression : bool) : M Writer :=
  fun s =>
    (NewWriter sst useCompression,
     mkSys (world s) (log s ++ [EvNewWriter useCompression])).

Definition wSet (w : Writer) (k v : string) : M unit :=
  fun s => (tt, mkSys (writerSet w k v (world s)) (log s ++ [EvSet k v])).

Definition fWriteTo (keys : list string) (sst : SSTable) : M (option error) :=
  fun s =>
    let (r, w) := filterWriteTo keys sst (world s) in
    (r, mkSys w (log s ++ [EvFilterWriteTo keys r])).

Definition fClose (sst : SSTable) : M unit :=
  fun s =>
    (tt, mkSys (filterfileClose sst (world s)) (log s ++ [EvFilterfileClose])).

Definition wClose (w : Writer) : M (option error) :=
  fun s =>
    let (r, w') := writerClose w (world s) in
    (r, mkSys w' (log s ++ [EvWriterClose r])).

Definition deleteSSTable (fs : FileSystem) (f : string) : M unit :=
  fun s =>
    (tt, mkSys (DeleteSSTable fs f (world s)) (log s ++ [EvDeleteSSTable f])).

Definition getTime : M Z := fun s => (now (world s), s).

(** Modelled from the spec: [NewChunkIterator(data)] wraps the records
    encoded in [data].  Section 4.2 also lets decoding fail on a
    truncated or malformed buffer.  Line 116 receives an iterator and
    nothing else, and [Next] at line 126 answers only yes or no, so such
    a failure cannot reach [compactBucket] as a value: it is not among
    the outcomes of a call that returns, which are the ones modelled
    here.  [decodeChunk data] is the sequence of records the iterator
    gives before its [Next] first answers no. *)
Definition NewChunkIterator (data : list Byte.byte) : chunkIterator :=
  chunkIteratorOf (decodeChunk data).

(** *** compactBucket (lines 104-156) *)

(** [compactionStats{err: err}]: every other field has its zero value. *)
Definition errStats (e : error) : compactionStats :=
  mkStats 0 0 0 0 "" (Some e).

(** Lines 110-118: read every file of the bucket, stopping at the first
    failure. *)
Fixpoint readChunks (fs : FileSystem) (files : list string)
  (iters : list chunkIterator) : M (error + list chunkIterator) :=
  match files with
  | [] => ret (inr iters)
  | f :: rest =>
      r <- readFile (dataFileName (path fs) f) ;;
      match r with
      | inl e => ret (inl e)
      | inr data => readChunks fs rest (iters ++ [NewChunkIterator data])
      end
  end.

(** Lines 126-129: the loop [for mergingIter.Next() { filter.Add(key);
    w.Set(key, value) }], on the iterator, the keys added to the filter
    and the system state. *)
Equations? mergeLoop (w : Writer) (mi : mergingIterator)
  (filter : list string) (s : Sys) : mergingIterator * list string * Sys
  by wf (remaining (sources mi)) lt :=
  mergeLoop w mi filter s with inspect (Next mi) => {
    | exist _ (true, mi') _ =>
        mergeLoop w mi' (filter ++ [Key mi'])
          (snd (wSet w (Key mi') (Value mi') s));
    | exist _ (false, mi') _ => (mi', filter, s) }.
Proof. apply Next_decreases. assumption. Qed.

(** Line 142-145: keys seen by the bucket's chunk iterators, which the
    merging iterator has been advancing. *)
Definition keysSeen (iters : list chunkIterator) : Z :=
  fold_left (fun n it => uint64 (n + numKeys it)) iters 0%Z.

(** The bucket is passed by pointer: the function returns it as it
    leaves it.  [sort.Sort] reorders [b.files] in place, so the files
    read, and later deleted, are the sorted ones; [b.files] is a window
    of the array behind [c.files], disjoint from the windows of the
    other buckets, and [c.files] is not read again after [makeBuckets].
    The deferred [sst.filterfile.Close()] is registered after the filter
    write and runs on each of the three returns that follow it. *)
Definition compactBucket (c : Compactor) (b : bucket)
  : M (bucket * compactionStats) :=
  startTime <- getTime ;;
  let b := mkBucket (sortByTime (b_files b)) (b_processed b) in
  r <- readChunks (c_fs c) (b_files b) [] ;;
  match r with
  | inl e => ret (b, errStats e)
  | inr iters =>
      r <- newSSTable (c_fs c) ;;
      match r with
      | inl e => ret (b, errStats e)
      | inr sst =>
          w <- newWriter sst (UseCompression (options (c_fs c))) ;;
          fun s =>
            let '(mergingIter, filter, s) :=
              mergeLoop w (NewMergingIterator iters) [] s in
            (e <- fWriteTo filter sst ;;
             match e with
             | Some e => fClose sst ;;; ret (b, errStats e)
             | None =>
                 e <- wClose w ;;
                 match e with
                 | Some e => fClose sst ;;; ret (b, errStats e)
                 | None =>
                     endTime <- getTime ;;
                     let timeTaken := showDuration (endTime - startTime) in
                     let b := mkBucket (b_files b) true in
                     let stats :=
                       mkStats (length (b_files b)) 1
                         (keysSeen (sources mergingIter))
                         (mi_numKeysAfterCompaction mergingIter)
                         timeTaken None in
                     fClose sst ;;; ret (b, stats)
                 end
             end) s
      end
  end.

(** *** The worker loop of compactBuckets (lines 91-99)

    The worker calls [compactBucket] on the buckets of [c.buckets] in
    order and hands each record to the consumer.  [Compact] keeps [done]
    open until it returns and receives until [results] is closed, so in a
    run of [Compact] the worker goes through every bucket; that run is
    [compactBuckets].  The interleaving with the consumer and with
    [done] is the transition system [pstep] further down, which is shown
    to agree with this loop. *)
Fixpoint compactBuckets_from (c : Compactor) (bs : list bucket)
  : M (list bucket * list compactionStats) :=
  match bs with
  | [] => ret ([], [])
  | b :: rest =>
      r <- compactBucket c b ;;
      rs <- compactBuckets_from c rest ;;
      ret (fst r :: fst rs, snd r :: snd rs)
  end.

(** [c.buckets] after the loop.  Nothing assigns [c.files]; the slices
    [makeBuckets] cuts share its array, so [sort.Sort] at line 110 moves
    names inside the window of each bucket.  That order is kept in
    [b_files]; [c_files] holds the candidate names as they were listed,
    and agrees with the array whenever the sort leaves the windows as
    they were. *)
Definition with_buckets (c : Compactor) (bs : list bucket) : Compactor :=
  mkCompactor (c_fs c) (c_files c) bs.

Definition compactBuckets (c : Compactor)
  : M (Compactor * list compactionStats) :=
  rs <- compactBuckets_from c (c_buckets c) ;;
  ret (with_buckets c (fst rs), snd rs).

(** *** deleteProcessedFiles (lines 158-167) *)

Fixpoint deleteFiles (fs : FileSystem) (files : list string) : M unit :=
  match files with
  | [] => ret tt
  | f :: rest => deleteSSTable fs f ;;; deleteFiles fs rest
  end.

Fixpoint deleteProcessed (fs : FileSystem) (bs : list bucket) : M unit :=
  match bs with
  | [] => ret tt
  | b :: rest =>
      (if b_processed b then deleteFiles fs (b_files b) else ret tt) ;;;
      deleteProcessed fs rest
  end.

Definition deleteProcessedFiles (c : Compactor) : M unit :=
  deleteProcessed (c_fs c) (c_buckets c).

(** *** Compact (lines 56-76)

    The result is the compactor as [Compact] leaves it, what was
    printed, and the system state.  [fuel] is the depth available to
    [makeBuckets]. *)
Definition Compact (fuel : nat) (c : Compactor) (s : Sys)
  : outcome (Compactor * list printed * Sys) :=
  if negb (shouldCompact c)
  then Returned (c, [NotEnoughSSTables], s)
  else
    match makeBuckets fuel c (slice_elems (c_files c)) with
    | Exhausted c1 => Exhausted (c1, [], s)
    | Returned c1 =>
        let '(c2, results, s1) := compactBuckets c1 s in
        let '(_, s2) := deleteProcessedFiles c2 s1 in
        Returned (c2, map Report results, s2)
    end.

(** *** NewCompactor (lines 169-184) *)

(** Modelled from the spec: [NewFS(path, &opts)] yields the file-system
    handle for [path] carrying the configuration bundle it was given. *)
Definition NewFS (p : string) (opts : Options) : FileSystem := mkFS p opts.

Definition NewCompactor (p : string) (s : Sys) : Compactor :=
  let opts := mkOptions false true false in
  let fs := NewFS p opts in
  let files := GetDataFiles p (world s) in
  mkCompactor fs files [].

End Compaction.

Arguments Sys {B}.
Arguments M {B} A.

(** ** The producer/consumer pipeline of compactBuckets (lines 87-102)

    [compactBuckets] starts one goroutine and returns the unbuffered
    channel [results].  The goroutine and its environment (the consumer
    receiving from [results], the caller closing [done]) are modelled as
    a labelled transition system.  The worker is at one of four places:
    - [AtRange]: at the head of [for _, bucket := range c.buckets];
    - [InCompactBucket b]: inside [c.compactBucket(bucket)] (line 93);
    - [AtSelect cs]: in the [select] of lines 94-98, holding [cs];
    - [Exited]: returned, [results] closed by the deferred [close].
    A [select] whose two cases are both ready takes either, so the send
    is enabled whenever the consumer receives, whether or not [done] is
    closed. *)

Inductive workerPC : Type :=
| AtRange
| InCompactBucket (b : bucket)
| AtSelect (cs : compactionStats)
| Exited.

Inductive action : Type :=
| ActBegin (b : bucket)          (* the worker enters compactBucket *)
| ActEnd (cs : compactionStats)  (* compactBucket returns cs *)
| ActSend (cs : compactionStats) (* results <- cs, received by the consumer *)
| ActCancelled                   (* case <-done: return *)
| ActCloseResults                (* range exhausted; close(results) *)
| ActCloseDone.                  (* the caller closes done *)

Definition is_begin (a : action) : bool :=
  match a with
  | ActBegin _ => true
  | _ => false
  end.

Definition is_send (a : action) : bool :=
  match a with
  | ActSend _ => true
  | _ => false
  end.

Definition by_worker (a : action) : bool :=
  match a with
  | ActCloseDone => false
  | _ => true
  end.

Definition sent (t : list action) : list compactionStats :=
  flat_map (fun a => match a with ActSend cs => [cs] | _ => [] end) t.

(** "No bucket is begun once [done] has been closed." *)
Fixpoint no_begin_after_close (t : list action) : bool :=
  match t with
  | [] => true
  | ActCloseDone :: rest => forallb (fun a => negb (is_begin a)) rest
  | _ :: rest => no_begin_after_close rest
  end.

Section Pipeline.

Context {B : Backend}.

Record pipeline := mkPipeline {
  p_worker : workerPC;
  p_done : bool;              (* done has been closed *)
  p_finished : list bucket;   (* buckets compactBucket has returned from *)
  p_todo : list bucket;       (* buckets the range has not reached *)
  p_sys : Sys
}.

Inductive pstep (c : Compactor) : pipeline -> action -> pipeline -> Prop :=
| step_begin d fin b todo s :
    pstep c (mkPipeline AtRange d fin (b :: todo) s)
            (ActBegin b)
            (mkPipeline (InCompactBucket b) d fin todo s)
| step_end d fin b todo s b' cs s' :
    compactBucket c b s = (b', cs, s') ->
    pstep c (mkPipeline (InCompactBucket b) d fin todo s)
            (ActEnd cs)
            (mkPipeline (AtSelect cs) d (fin ++ [b']) todo s')
| step_send d fin todo s cs :
    pstep c (mkPipeline (AtSelect cs) d fin todo s)
            (ActSend cs)
            (mkPipeline AtRange d fin todo s)
| step_cancelled fin todo s cs :
    pstep c (mkPipeline (AtSelect cs) true fin todo s)
            ActCancelled
            (mkPipeline Exited true fin todo s)
| step_close_results d fin s :
    pstep c (mkPipeline AtRange d fin [] s)
            ActCloseResults
            (mkPipeline Exited d fin [] s)
| step_close_done w fin todo s :
    pstep c (mkPipeline w false fin todo s)
            ActCloseDone
            (mkPipeline w true fin todo s).

(** Executions, with the actions taken so far (oldest first). *)
Inductive run (c : Compactor) (p0 : pipeline) : list action -> pipeline -> Prop :=
| run_nil : run c p0 [] p0
| run_snoc t p a p' : run c p0 t p -> pstep c p a p' -> run c p0 (t ++ [a]) p'.

(** The pipeline as [compactBuckets] sets it up. *)
Definition start (c : Compactor) (s : Sys) : pipeline :=
  mkPipeline AtRange false [] (c_buckets c) s.

(** The actions of an undisturbed worker on [bs] from state [s]. *)
Fixpoint script (c : Compactor) (bs : list bucket) (s : Sys) : list action :=
  match bs with
  | [] => [ActCloseResults]
  | b :: rest =>
      let '(_, cs, s') := compactBucket c b s in
      ActBegin b :: ActEnd cs :: ActSend cs :: script c rest s'
  end.

(** What an undisturbed worker still has to do from a given state. *)
Definition rest_script (c : Compactor) (p : pipeline) : list action :=
  match p_worker p with
  | AtRange => script c (p_todo p) (p_sys p)
  | InCompactBucket b => tl (script c (b :: p_todo p) (p_sys p))
  | AtSelect cs => ActSend cs :: script c (p_todo p) (p_sys p)
  | Exited => []
  end.

(** The worker's actions so far are a prefix of the script, or such a
    prefix ending where a send was due, followed by the done case. *)
Definition follows_script (c : Compactor) (full : list action)
  (t : list action) (p : pipeline) : Prop :=
  filter by_worker t ++ rest_script c p = full
  \/
  (p_worker p = Exited /\ p_done p = true /\
   exists pre cs rest,
     filter by_worker t = pre ++ [ActCancelled] /\
     full = pre ++ ActSend cs :: rest).

(** What the remaining buckets would add to the buckets finished so
    far. *)
Definition rest_loop (c : Compactor) (p : pipeline)
  : list bucket * list compactionStats * Sys :=
  match p_worker p with
  | InCompactBucket b => compactBuckets_from c (b :: p_todo p) (p_sys p)
  | _ => compactBuckets_from c (p_todo p) (p_sys p)
  end.

End Pipeline.

(** ** An in-memory backend

    A small concrete [Backend], used to run the definitions: the disk is
    an association list from data-file names to contents, a chunk is a
    sequence of (key byte, value byte) pairs, and everything but reading
    a missing file succeeds. *)

Module Mem.

Record world := mkWorld {
  disk : list (string * list Byte.byte);
  listing : option (list string);
  stored : list record
}.

Fixpoint lookup (name : string) (d : list (string * list Byte.byte))
  : option (list Byte.byte) :=
  match d with
  | [] => None
  | (n, data) :: rest => if String.eqb n name then Some data else lookup name rest
  end.

Definition str1 (b : Byte.byte) : string :=
  String (ascii_of_byte b) EmptyString.

Fixpoint decode (data : list Byte.byte) : list record :=
  match data with
  | k :: v :: rest => (str1 k, str1 v) :: decode rest
  | _ => []
  end.

Definition fileName (dir f : string) : string :=
  (dir ++ "/" ++ f ++ ".db")%string.

#[export] Instance backend : Backend := {|
  World := world;
  SSTable := nat;
  Writer := nat;
  dataFileName := fileName;
  GetDataFiles := fun _ w => listing w;
  sortByTime := fun files => files;
  ReadFile := fun name w =>
    match lookup name (disk w) with
    | Some data => (inr data, w)
    | None => (inl "no such file", w)
    end;
  decodeChunk := decode;
  NewSSTable := fun _ w => (inr 0, w);
  NewWriter := fun sst _ => sst;
  writerSet := fun _ k v w =>
    mkWorld (disk w) (listing w) (stored w ++ [(k, v)]);
  filterWriteTo := fun _ _ w => (None, w);
  filterfileClose := fun _ w => w;
  writerClose := fun _ w => (None, w);
  DeleteSSTable := fun fs f w =>
    mkWorld
      (filter (fun e => negb (String.eqb (fst e) (fileName (path fs) f)))
         (disk w))
      (listing w) (stored w);
  now := fun _ => 0%Z;
  showDuration := fun _ => "0s"
|}.

(** Segments A = {a:1}, B = {a:2}, C = {b:3}, with B sorted after A. *)
Definition w3 : world :=
  mkWorld
    [("/db/A.db", [Byte.x61; Byte.x31]);
     ("/db/B.db", [Byte.x61; Byte.x32]);
     ("/db/C.db", [Byte.x62; Byte.x33])]
    (Some ["A"; "B"; "C"]) [].

Definition s3 : Sys := mkSys w3 [].

(** The same listing with [B]'s data file missing. *)
Definition w3_missing : world :=
  mkWorld
    [("/db/A.db", [Byte.x61; Byte.x31]);
     ("/db/C.db", [Byte.x62; Byte.x33])]
    (Some ["A"; "B"; "C"]) [].

Definition s3_missing : Sys := mkSys w3_missing [].

(** Ten segments, each holding the one record k:v, and the compactor
    [NewCompactor] and [makeBuckets] build for them: two buckets of five
    files. *)
Definition w10 : world :=
  mkWorld
    (map (fun f => (fileName "/db" f, [Byte.x6b; Byte.x76])) sample_files)
    (Some sample_files) [].

Definition s10 : Sys := mkSys w10 [].

Definition c10 : Compactor :=
  reached (makeBuckets 10 (NewCompactor "/db" s10) sample_files).

Definition c3 : Compactor :=
  reached (makeBuckets 3 (NewCompactor "/db" s3) ["A"; "B"; "C"]).

End Mem.

(** The example of the spec: A = {a:1}, B = {a:2}, C = {b:3}, B more
    recent than A. *)
Definition abc_iters : list chunkIterator :=
  [chunkIteratorOf [("a", "1")];
   chunkIteratorOf [("a", "2")];
   chunkIteratorOf [("b", "3")]].

(** Modelled from the spec: the ordering policy [ByTime] (sections 2 and
    9; its code is not in [compaction.go]) orders segment names by the
    creation time they encode, and newest-wins needs the more recent
    segment sorted later.  [oldest_first time files] says that [files]
    is in that order for the creation times [time]. *)
Definition oldest_first (time : string -> Z) (files : list string) : Prop :=
  StronglySorted (fun f g => (time f <= time g)%Z) files.

(** Creation times for the segments of the in-memory store: A before B
    before C. *)
Definition abc_time (f : string) : Z :=
  if String.eqb f "A" then 1%Z else if String.eqb f "B" then 2%Z else 3%Z.

(** ** The calls of one compactBucket

    The sequences of outside calls one [compactBucket] can make, by
    outcome: they are read off lines 110-138. *)

Definition written (l : list event) : list record :=
  flat_map (fun e => match e with EvSet k v => [(k, v)] | _ => [] end) l.

Definition is_filterfile_close (e : event) : bool :=
  match e with
  | EvFilterfileClose => true
  | _ => false
  end.

Definition is_writer_close (e : event) : bool :=
  match e with
  | EvWriterClose _ => true
  | _ => false
  end.

Definition is_created (e : event) : bool :=
  match e with
  | EvNewSSTable _ None => true
  | _ => false
  end.

Definition is_read (e : event) : bool :=
  match e with
  | EvReadFile _ _ => true
  | _ => false
  end.

Definition occurrences (p : event -> bool) (l : list event) : nat :=
  length (filter p l).

Definition is_filter_written (e : event) : bool :=
  match e with
  | EvFilterWriteTo _ None => true
  | _ => false
  end.

(** The key lists handed to [filter.WriteTo], in order. *)
Definition filter_writes (l : list event) : list (list string) :=
  flat_map (fun e => match e with EvFilterWriteTo keys _ => [keys] | _ => [] end) l.

Section Protocol.

Context {B : Backend}.

Definition read_ok (fs : FileSystem) (f : string) : event :=
  EvReadFile (dataFileName (path fs) f) None.

Definition read_failed (fs : FileSystem) (f : string) (e : error) : event :=
  EvReadFile (dataFileName (path fs) f) (Some e).

(** Lines 119-123 when the segment is created. *)
Definition opened (fs : FileSystem) : list event :=
  [EvNewSSTable fs None; EvNewWriter (UseCompression (options fs))].

(** The contents [ioutil.ReadFile] returns for [files], read one after
    the other from the world [w] as the loop of lines 111-118 reads
    them, up to the first failure, and the world the reads leave. *)
Fixpoint readContents (fs : FileSystem) (files : list string) (w : World)
  : (error + list (list Byte.byte)) * World :=
  match files with
  | [] => (inr [], w)
  | f :: rest =>
      match ReadFile (dataFileName (path fs) f) w with
      | (inl e, w') => (inl e, w')
      | (inr data, w') =>
          match readContents fs rest w' with
          | (inl e, w'') => (inl e, w'')
          | (inr datas, w'') => (inr (data :: datas), w'')
          end
      end
  end.

(** The records the merging iterator built over the chunk iterators of
    [datas], in that order, yields (lines 116 and 125-126). *)
Definition merge_of (datas : list (list Byte.byte)) : list record :=
  merged (NewMergingIterator (map NewChunkIterator datas)).

(** Lines 111-129 when nothing fails: every file read, the segment and
    its writer, one [w.Set] per merged record. *)
Definition merged_calls (fs : FileSystem) (files : list string)
  (datas : list (list Byte.byte)) : list event :=
  map (read_ok fs) files ++ opened fs ++ map set_event (merge_of datas).

(** The calls of a [compactBucket] that reaches line 139. *)
Definition completed_calls (fs : FileSystem) (files : list string)
  (datas : list (list Byte.byte)) : list event :=
  merged_calls fs files datas ++
  [EvFilterWriteTo (map fst (merge_of datas)) None; EvWriterClose None;
   EvFilterfileClose].

(** The calls of one [compactBucket] on [files] (already sorted) entered
    in world [w], with the error of the record it returns.  [datas] are
    the contents the reads return from [w]; the records written are
    their merge. *)
Inductive bucket_calls (fs : FileSystem) (files : list string) (w : World)
  : list event -> option error -> Prop :=
| calls_read_failed pre f post datas e :
    files = pre ++ f :: post ->
    fst (readContents fs pre w) = inr datas ->
    fst (ReadFile (dataFileName (path fs) f) (snd (readContents fs pre w)))
      = inl e ->
    bucket_calls fs files w
      (map (read_ok fs) pre ++ [read_failed fs f e]) (Some e)
| calls_create_failed datas e :
    fst (readContents fs files w) = inr datas ->
    fst (NewSSTable fs (snd (readContents fs files w))) = inl e ->
    bucket_calls fs files w
      (map (read_ok fs) files ++ [EvNewSSTable fs (Some e)]) (Some e)
| calls_filter_failed datas sst e :
    fst (readContents fs files w) = inr datas ->
    fst (NewSSTable fs (snd (readContents fs files w))) = inr sst ->
    bucket_calls fs files w
      (merged_calls fs files datas ++
       [EvFilterWriteTo (map fst (merge_of datas)) (Some e);
        EvFilterfileClose])
      (Some e)
| calls_close_failed datas sst e :
    fst (readContents fs files w) = inr datas ->
    fst (NewSSTable fs (snd (readContents fs files w))) = inr sst ->
    bucket_calls fs files w
      (merged_calls fs files datas ++
       [EvFilterWriteTo (map fst (merge_of datas)) None;
        EvWriterClose (Some e); EvFilterfileClose])
      (Some e)
| calls_done datas sst :
    fst (readContents fs files w) = inr datas ->
    fst (NewSSTable fs (snd (readContents fs files w))) = inr sst ->
    bucket_calls fs files w (completed_calls fs files datas) None.

(** The calls made between the states [s] and [s']. *)
Definition calls_since (s s' : Sys) : list event :=
  skipn (length (log s)) (log s').

(** One pass of the worker loop through [compactBucket]: the bucket as
    it was handed over, the state on entry, the calls made, the bucket
    as it was left and the record returned. *)
Record bucket_run := mkRun {
  planned : bucket;
  entry : Sys;
  made : list event;
  finished : bucket;
  reported : compactionStats
}.

(** The passes of the worker loop over [bs] from the state [s]. *)
Fixpoint bucket_runs (c : Compactor) (bs : list bucket) (s : Sys)
  : list bucket_run :=
  match bs with
  | [] => []
  | b :: rest =>
      let r := compactBucket c b s in
      mkRun b s (calls_since s (snd r)) (fst (fst r)) (snd (fst r))
      :: bucket_runs c rest (snd r)
  end.

(** The [DeleteSSTable] calls owed to a pass. *)
Definition deletions_after (r : bucket_run) : list event :=
  deletions_for (finished r, reported r).

(** [pass_ok fs r]: the bucket was handed over unprocessed and is left
    with its files sorted; the calls made are those of [bucket_calls]
    for the world the pass started in; the flag is set exactly when the
    record carries no error, and then every call of lines 111-138 was
    made and succeeded; the deletions owed are the bucket's files when
    the flag is set and none otherwise; no file was deleted during the
    pass. *)
Definition pass_ok (fs : FileSystem) (r : bucket_run) : Prop :=
  b_processed (planned r) = false /\
  b_files (finished r) = sortByTime (b_files (planned r)) /\
  bucket_calls fs (b_files (finished r)) (world (entry r)) (made r)
    (err (reported r)) /\
  (b_processed (finished r) = true <-> err (reported r) = None) /\
  (b_processed (finished r) = true ->
   exists datas,
     fst (readContents fs (b_files (finished r)) (world (entry r)))
       = inr datas /\
     made r = completed_calls fs (b_files (finished r)) datas) /\
  deletions_after r =
    (if b_processed (finished r)
     then map EvDeleteSSTable (b_files (finished r)) else []) /\
  Forall (fun e => is_delete e = false) (made r).

End Protocol.

Definition is_cancelled (a : action) : bool :=
  match a with
  | ActCancelled => true
  | _ => false
  end.

(** The deletions [deleteProcessedFiles] owes a bucket. *)
Definition deletions_of (b : bucket) : list event :=
  if b_processed b then map EvDeleteSSTable (b_files b) else [].

(** * Properties *)

(** ** Bucket planning *)

Example makeBuckets_ten :
  makeBuckets 2 sample_compactor sample_files =
  Returned (mkCompactor sample_fs (Some sample_files)
              [mkBucket ["01"; "02"; "03"; "04"; "05"] false;
               mkBucket ["06"; "07"; "08"; "09"; "10"] false]).
Proof. reflexivity. Qed.

Section Planner.

Lemma halves_of_long (n : nat) :
  maxBucketSize < n ->
  minBucketSize <= n / 2 /\ n / 2 < n /\
  minBucketSize <= n - n / 2 /\ n - n / 2 < n.
Proof.
  unfold minBucketSize, maxBucketSize. intros Hn.
  pose proof (Nat.div_mod_eq n 2) as Hd.
  pose proof (Nat.mod_upper_bound n 2 ltac:(lia)) as Hm.
  lia.
Qed.

Lemma length_firstn_half {A} (l : list A) :
  length (firstn (length l / 2) l) = length l / 2.
Proof.
  rewrite length_firstn. apply Nat.min_l.
  apply Nat.Div0.div_le_upper_bound. lia.
Qed.

Lemma length_skipn_half {A} (l : list A) :
  length (skipn (length l / 2) l) = length l - length l / 2.
Proof. apply length_skipn. Qed.

Lemma bounds_test (files : list string) :
  (minBucketSize <=? length files) && (length files <=? maxBucketSize) = true
  <-> minBucketSize <= length files <= maxBucketSize.
Proof.
  rewrite andb_true_iff, !Nat.leb_le. tauto.
Qed.

Lemma makeBuckets_0 c files : makeBuckets 0 c files = Exhausted c.
Proof. reflexivity. Qed.

Lemma makeBuckets_S fuel c files :
  makeBuckets (S fuel) c files =
  if (minBucketSize <=? length files) && (length files <=? maxBucketSize)
  then Returned (append_bucket c (mkBucket files false))
  else
    match makeBuckets fuel c (firstn (length files / 2) files) with
    | Returned c1 => makeBuckets fuel c1 (skipn (length files / 2) files)
    | Exhausted c1 => Exhausted c1
    end.
Proof. reflexivity. Qed.

Lemma bounds_test_false (files : list string) :
  (minBucketSize <=? length files) && (length files <=? maxBucketSize) = false
  <-> length files < minBucketSize \/ maxBucketSize < length files.
Proof.
  rewrite andb_false_iff, !Nat.leb_gt. tauto.
Qed.

(** Whatever the outcome, [makeBuckets] only appends to [c.buckets], and
    only buckets that are within bounds and unprocessed; when the call
    returns, the appended buckets' files, taken in order, are the input. *)
Lemma makeBuckets_appends (fuel : nat) :
  forall c files,
  exists new,
    reached (makeBuckets fuel c files) =
      mkCompactor (c_fs c) (c_files c) (c_buckets c ++ new) /\
    Forall in_bounds new /\ Forall fresh new /\
    (returned (makeBuckets fuel c files) = true ->
     concat (map b_files new) = files).
Proof.
  induction fuel as [|fuel IH]; intros c files.
  - exists []. rewrite makeBuckets_0, app_nil_r. destruct c; cbn.
    split; [reflexivity|]. split; [|split]; auto. discriminate.
  - rewrite makeBuckets_S.
    destruct ((minBucketSize <=? length files) &&
              (length files <=? maxBucketSize)) eqn:Hb.
    + exists [mkBucket files false]. cbn.
      apply bounds_test in Hb.
      split; [reflexivity|]. split; [|split].
      * constructor; auto.
      * constructor; auto. reflexivity.
      * intros _. apply app_nil_r.
    + destruct (IH c (firstn (length files / 2) files))
        as (n1 & E1 & B1 & F1 & C1).
      destruct (makeBuckets fuel c (firstn (length files / 2) files))
        as [c1|c1] eqn:E; cbn [reached returned] in *.
      * destruct (IH c1 (skipn (length files / 2) files))
          as (n2 & E2 & B2 & F2 & C2).
        exists (n1 ++ n2). subst c1. cbn [c_fs c_files c_buckets] in E2.
        rewrite E2, app_assoc.
        split; [reflexivity|]. split; [|split].
        -- apply Forall_app; auto.
        -- apply Forall_app; auto.
        -- intros R. rewrite map_app, concat_app, C1, C2 by auto.
           apply firstn_skipn.
      * exists n1. split; [assumption|]. split; [|split]; auto.
        discriminate.
Qed.

(** With at least [minBucketSize] files the call returns as soon as the
    available depth reaches the number of files. *)
Lemma makeBuckets_returns (fuel : nat) :
  forall c files,
    minBucketSize <= length files -> length files <= fuel ->
    returned (makeBuckets fuel c files) = true.
Proof.
  induction fuel as [|fuel IH]; intros c files Hmin Hfuel.
  - unfold minBucketSize in Hmin. lia.
  - rewrite makeBuckets_S.
    destruct ((minBucketSize <=? length files) &&
              (length files <=? maxBucketSize)) eqn:Hb; [reflexivity|].
    apply bounds_test_false in Hb.
    destruct Hb as [Hb|Hlong]; [lia|].
    destruct (halves_of_long _ Hlong) as (H1 & H2 & H3 & H4).
    pose proof (IH c (firstn (length files / 2) files)) as R1.
    rewrite length_firstn_half in R1.
    specialize (R1 H1 ltac:(lia)).
    destruct (makeBuckets fuel c (firstn (length files / 2) files))
      as [c1|c1]; [|discriminate].
    apply IH; rewrite length_skipn_half; auto. lia.
Qed.

(** More depth does not change the result of a call that returned. *)
Lemma makeBuckets_fuel_mono (fuel : nat) :
  forall c files c',
    makeBuckets fuel c files = Returned c' ->
    forall fuel', fuel <= fuel' -> makeBuckets fuel' c files = Returned c'.
Proof.
  induction fuel as [|fuel IH]; intros c files c' E fuel' Hle;
    [discriminate|].
  destruct fuel' as [|fuel']; [lia|].
  rewrite makeBuckets_S in *.
  destruct ((minBucketSize <=? length files) &&
            (length files <=? maxBucketSize)); [assumption|].
  destruct (makeBuckets fuel c (firstn (length files / 2) files))
    as [c1|c1] eqn:E1; [|discriminate].
  rewrite (IH _ _ _ E1 fuel') by lia.
  apply IH; auto. lia.
Qed.

(** With fewer than [minBucketSize] files the first recursive call is on
    the empty prefix [files[0:0]], which recurses on itself: no depth is
    enough, and [c.buckets] is never appended to. *)
Lemma makeBuckets_short (fuel : nat) :
  forall c files,
    length files < minBucketSize ->
    makeBuckets fuel c files = Exhausted c.
Proof.
  induction fuel as [|fuel IH]; intros c files Hlen; [reflexivity|].
  rewrite makeBuckets_S.
  assert (Hb : (minBucketSize <=? length files) &&
               (length files <=? maxBucketSize) = false).
  { apply bounds_test_false. left. assumption. }
  rewrite Hb.
  rewrite IH; [reflexivity|].
  rewrite length_firstn_half.
  unfold minBucketSize in *.
  destruct (length files) as [|[|n]]; cbn; lia.
Qed.

End Planner.


(** With at least [minBucketSize] files, and depth to spare, the call
    returns the compactor extended with in-bounds, unprocessed buckets
    that partition the input in order. *)
Lemma makeBuckets_total (c : Compactor) (files : list string) :
  minBucketSize <= length files ->
  exists new,
    (forall fuel, length files <= fuel ->
       makeBuckets fuel c files =
       Returned (mkCompactor (c_fs c) (c_files c) (c_buckets c ++ new))) /\
    concat (map b_files new) = files /\
    Forall in_bounds new /\ Forall fresh new.
Proof.
  intros Hmin.
  destruct (makeBuckets_appends (length files) c files)
    as (new & E & Hb & Hf & Hc).
  pose proof (makeBuckets_returns (length files) c files Hmin (le_n _)) as R.
  exists new. split; [|auto].
  intros fuel Hfuel.
  destruct (makeBuckets (length files) c files) as [c'|c'] eqn:E'; [|discriminate].
  cbn [reached] in E. subst c'.
  eapply makeBuckets_fuel_mono; eauto.
Qed.

(** C3 fails as stated: on a one-file list no depth of recursion makes
    the buckets of [makeBuckets] cover the list. *)
Lemma makeBuckets_single_file_not_covered :
  ~ exists fuel,
      concat (map b_files
                (c_buckets
                   (reached (makeBuckets fuel (mkCompactor sample_fs (Some ["01"]) [])
                               ["01"])))) = ["01"].
Proof.
  intros [fuel H].
  rewrite makeBuckets_short in H by (cbn; unfold minBucketSize; lia).
  discriminate H.
Qed.

(** C3 (amended): for an input list of at least [minBucketSize] files,
    [makeBuckets] returns having appended buckets whose file lists,
    concatenated in bucket order, are exactly the input list: every
    file is in exactly one bucket, none is duplicated, and the original
    order is kept within (and across) buckets. *)
Theorem makeBuckets_coverage (c : Compactor) (files : list string) :
  minBucketSize <= length files ->
  exists new,
    (forall fuel, length files <= fuel ->
       makeBuckets fuel c files =
       Returned (mkCompactor (c_fs c) (c_files c) (c_buckets c ++ new))) /\
    concat (map b_files new) = files.
Proof.
  intros Hmin.
  destruct (makeBuckets_total c files Hmin) as (new & E & Hc & _).
  exists new. auto.
Qed.

Lemma makeBuckets_coverage_witness :
  exists new,
    (forall fuel, length sample_files <= fuel ->
       makeBuckets fuel sample_compactor sample_files =
       Returned (mkCompactor sample_fs (Some sample_files) ([] ++ new))) /\
    concat (map b_files new) = sample_files.
Proof.
  apply (makeBuckets_coverage sample_compactor sample_files).
  unfold minBucketSize. cbn. lia.
Defined.

(** C4: every bucket [makeBuckets] appends, at any point of its
    execution, has between [minBucketSize] and [maxBucketSize] files;
    for an input list shorter than [minBucketSize] no bucket is appended
    at all, and for a longer one some bucket is. *)
Theorem makeBuckets_bucket_bounds (fuel : nat) (c : Compactor) (files : list string) :
  exists new,
    c_buckets (reached (makeBuckets fuel c files)) = c_buckets c ++ new /\
    Forall in_bounds new /\
    (length files < minBucketSize -> new = []) /\
    (minBucketSize <= length files -> length files <= fuel -> new <> []).
Proof.
  destruct (makeBuckets_appends fuel c files) as (new & E & Hb & _ & Hc).
  exists new. rewrite E. cbn [c_buckets].
  split; [reflexivity|]. split; [assumption|]. split.
  - intros Hshort. rewrite makeBuckets_short in E by assumption.
    cbn [reached] in E. destruct c as [fs fl bs]. cbn in E.
    inversion E as [Hbs].
    rewrite <- (app_nil_r bs) in Hbs at 1.
    apply app_inv_head in Hbs. auto.
  - intros Hmin Hfuel Hnil. subst new.
    specialize (Hc (makeBuckets_returns fuel c files Hmin Hfuel)).
    cbn in Hc. subst files. cbn in Hmin. unfold minBucketSize in Hmin. lia.
Qed.

(** C5 fails as stated: on a one-file list [makeBuckets] does not
    return, whatever depth of recursion is available. *)
Lemma makeBuckets_single_file_never_returns :
  ~ exists fuel,
      returned (makeBuckets fuel (mkCompactor sample_fs (Some ["01"]) []) ["01"])
      = true.
Proof.
  intros [fuel H].
  rewrite makeBuckets_short in H by (cbn; unfold minBucketSize; lia).
  discriminate H.
Qed.

(** C5 (amended): on an input list of at least [minBucketSize] files
    [makeBuckets] returns (a recursion depth equal to the number of
    files is enough), and whenever it recurses both halves are strictly
    shorter than the list and still have at least [minBucketSize]
    files. *)
Theorem makeBuckets_terminates (c : Compactor) (files : list string) :
  minBucketSize <= length files ->
  (exists c', forall fuel, length files <= fuel ->
                makeBuckets fuel c files = Returned c') /\
  (maxBucketSize < length files ->
   let h := length files / 2 in
   minBucketSize <= length (firstn h files) < length files /\
   minBucketSize <= length (skipn h files) < length files).
Proof.
  intros Hmin. split.
  - destruct (makeBuckets_total c files Hmin) as (new & E & _). eauto.
  - intros Hlong h. subst h.
    rewrite length_firstn_half, length_skipn_half.
    pose proof (halves_of_long _ Hlong). lia.
Qed.

Lemma makeBuckets_terminates_witness :
  (exists c', forall fuel, length sample_files <= fuel ->
                makeBuckets fuel sample_compactor sample_files = Returned c') /\
  (maxBucketSize < length sample_files ->
   let h := length sample_files / 2 in
   minBucketSize <= length (firstn h sample_files) < length sample_files /\
   minBucketSize <= length (skipn h sample_files) < length sample_files).
Proof.
  apply (makeBuckets_terminates sample_compactor sample_files).
  unfold minBucketSize. cbn. lia.
Defined.

(** ** The gate *)

Lemma shouldCompact_true_iff (c : Compactor) :
  shouldCompact c = true <-> minBucketSize < slice_len (c_files c).
Proof.
  unfold shouldCompact, slice_len, slice_elems.
  destruct (c_files c) as [fl|].
  - apply Nat.ltb_lt.
  - cbn. unfold minBucketSize. split; [discriminate|lia].
Qed.

Section Gate.

Context {B : Backend}.

(** C7: [shouldCompact] is true exactly when the number of candidate
    files exceeds [minBucketSize] (a nil list counts as none); when it
    does not, [Compact] returns with the compactor, the collaborators'
    world and the record of outside calls all unchanged -- no read, no
    write, no deletion -- having only printed its notice. *)
Theorem Compact_gate (fuel : nat) (c : Compactor) (s : Sys) :
  (shouldCompact c = true <-> minBucketSize < slice_len (c_files c)) /\
  (slice_len (c_files c) <= minBucketSize ->
   shouldCompact c = false /\
   Compact fuel c s = Returned (c, [NotEnoughSSTables], s)).
Proof.
  split; [apply shouldCompact_true_iff|].
  intros Hle.
  assert (Hf : shouldCompact c = false).
  { destruct (shouldCompact c) eqn:E; [|reflexivity].
    apply shouldCompact_true_iff in E. lia. }
  split; [assumption|].
  unfold Compact. rewrite Hf. reflexivity.
Qed.

End Gate.

Lemma Compact_gate_witness :
  let c := mkCompactor sample_fs (Some ["A"; "B"]) [] in
  let n := mkCompactor sample_fs None [] in
  (shouldCompact c = false /\
   Compact 5 c Mem.s3 = Returned (c, [NotEnoughSSTables], Mem.s3)) /\
  (shouldCompact n = false /\
   Compact 5 n Mem.s3 = Returned (n, [NotEnoughSSTables], Mem.s3)).
Proof.
  split.
  - apply (Compact_gate 5 (mkCompactor sample_fs (Some ["A"; "B"]) []) Mem.s3).
    unfold minBucketSize. cbn. lia.
  - apply (Compact_gate 5 (mkCompactor sample_fs None []) Mem.s3).
    unfold minBucketSize. cbn. lia.
Defined.

(** ** The merge loop *)

Lemma merged_step mi mi' :
  Next mi = (true, mi') -> merged mi = (Key mi', Value mi') :: merged mi'.
Proof.
  intros E. funelim (merged mi); [|congruence].
  assert (mi'0 = mi') by congruence. subst. reflexivity.
Qed.

Lemma merged_stop mi mi' : Next mi = (false, mi') -> merged mi = [].
Proof.
  intros E. funelim (merged mi); [congruence|reflexivity].
Qed.


Section MergeLoop.

Context {B : Backend}.

(** The loop calls [w.Set] on the merged records, in order, adds their
    keys to the filter, and makes no other outside call. *)
Lemma mergeLoop_merged w mi filter s :
  log (snd (mergeLoop w mi filter s)) = log s ++ map set_event (merged mi) /\
  snd (fst (mergeLoop w mi filter s)) = filter ++ map fst (merged mi).
Proof.
  funelim (mergeLoop w mi filter s).
  - destruct H as [Hl Hf]. rewrite Hl, Hf.
    rewrite (merged_step _ _ e). cbn.
    rewrite <- !app_assoc. auto.
  - rewrite (merged_stop _ _ e). cbn. rewrite !app_nil_r. auto.
Qed.

End MergeLoop.

(** *** Key order *)

Lemma key_lt_trans a b c : key_lt a b -> key_lt b c -> key_lt a c.
Proof.
  unfold key_lt. intros H1 H2.
  apply String_as_OT.cmp_lt in H1, H2. apply String_as_OT.cmp_lt.
  eapply String_as_OT.lt_trans; eauto.
Qed.

Lemma key_lt_irrefl a : ~ key_lt a a.
Proof.
  unfold key_lt. intros H.
  assert (E : String.compare a a = Eq) by (apply String_as_OT.cmp_eq; auto).
  congruence.
Qed.

Lemma key_not_lt a b : ~ key_lt a b -> a = b \/ key_lt b a.
Proof.
  unfold key_lt. intros H.
  destruct (String.compare a b) eqn:E.
  - left. apply String.compare_eq_iff. assumption.
  - congruence.
  - right. rewrite String.compare_antisym, E. reflexivity.
Qed.

Lemma key_le_lt_trans a b c : ~ key_lt b a -> key_lt c a -> key_lt c b.
Proof.
  intros H1 H2. destruct (key_not_lt _ _ H1) as [->|H]; auto.
  eapply key_lt_trans; eauto.
Qed.

(** *** What the merge yields *)

Lemma smaller_bound a b m :
  smaller a b = Some m ->
  (forall x, a = Some x -> ~ key_lt x m) /\
  (forall y, b = Some y -> ~ key_lt y m).
Proof.
  destruct a as [x|], b as [y|]; cbn; intros H.
  - destruct (String.compare y x) eqn:E; inversion H; subst; split;
      intros z Hz; inversion Hz; subst; try apply key_lt_irrefl.
    + unfold key_lt. congruence.
    + unfold key_lt. rewrite String.compare_antisym, E. cbn. congruence.
    + unfold key_lt. congruence.
  - inversion H; subst. split; intros z Hz; inversion Hz; subst.
    apply key_lt_irrefl.
  - inversion H; subst. split; intros z Hz; inversion Hz; subst.
    apply key_lt_irrefl.
  - discriminate.
Qed.

Lemma min_key_below srcs k : min_key srcs = Some k -> below_heads k srcs.
Proof.
  revert k. induction srcs as [|it srcs IH]; intros k H; [constructor|].
  rewrite min_key_cons in H.
  destruct (smaller_bound _ _ _ H) as [Ha Hb].
  constructor; [auto|].
  destruct (min_key srcs) as [y|] eqn:Ey.
  - specialize (IH y eq_refl). specialize (Hb y eq_refl).
    eapply Forall_impl; [|exact IH].
    intros it' Hit k' Hk' Hlt. apply (Hit k' Hk').
    eapply key_le_lt_trans; eauto.
  - apply min_key_none in Ey.
    eapply Forall_impl; [|exact Ey].
    intros it' Hit k' Hk'. apply head_key_none in Hit. congruence.
Qed.

Lemma assoc_none_above k rs :
  Forall (key_lt k) (map fst rs) -> assoc k rs = None.
Proof.
  induction rs as [|[k' v] rest IH]; cbn; intros H; [reflexivity|].
  inversion H; subst.
  destruct (String.eqb_spec k' k) as [->|]; [|auto].
  exfalso. eapply key_lt_irrefl; eauto.
Qed.

(** In a sorted source none of whose keys is below [k], [k] can only be
    the current key. *)
Lemma assoc_head k it :
  sorted_source it ->
  (forall k', head_key it = Some k' -> ~ key_lt k' k) ->
  assoc k (pending it) =
  match pending it with
  | [] => None
  | (k', v) :: _ => if String.eqb k' k then Some v else None
  end.
Proof.
  unfold sorted_source, head_key.
  destruct (pending it) as [|[k' v] rest]; cbn; intros Hs Hh; [reflexivity|].
  destruct (String.eqb_spec k' k) as [->|Hne]; [reflexivity|].
  apply assoc_none_above.
  inversion Hs; subst.
  destruct (key_not_lt _ _ (Hh k' eq_refl)) as [|Hlt]; [contradiction|].
  eapply Forall_impl; [|eassumption].
  intros a Ha. eapply key_lt_trans; eauto.
Qed.

Lemma advance_past_above k it :
  sorted_source it ->
  (forall k', head_key it = Some k' -> ~ key_lt k' k) ->
  Forall (key_lt k) (map fst (pending (advance_past k it))).
Proof.
  unfold sorted_source, head_key, advance_past.
  destruct (pending it) as [|[k' v] rest] eqn:E; cbn; intros Hs Hh.
  - rewrite E. constructor.
  - inversion Hs; subst.
    destruct (String.eqb_spec k' k) as [->|Hne]; cbn; [assumption|].
    rewrite E. cbn.
    destruct (key_not_lt _ _ (Hh k' eq_refl)) as [|Hlt]; [contradiction|].
    constructor; [assumption|].
    eapply Forall_impl; [|eassumption].
    intros a Ha. eapply key_lt_trans; eauto.
Qed.

Lemma advance_past_sorted k it :
  sorted_source it -> sorted_source (advance_past k it).
Proof.
  unfold sorted_source, advance_past.
  destruct (pending it) as [|[k' v] rest] eqn:E; cbn; intros Hs.
  - rewrite E. constructor.
  - destruct (String.eqb k' k); cbn.
    + inversion Hs; auto.
    + rewrite E. assumption.
Qed.

Lemma advance_past_assoc k K it :
  K <> k -> assoc K (pending (advance_past k it)) = assoc K (pending it).
Proof.
  unfold advance_past. intros Hne.
  destruct (pending it) as [|[k' v] rest] eqn:E; [rewrite E; reflexivity|].
  destruct (String.eqb_spec k' k) as [->|]; cbn.
  - destruct (String.eqb_spec k K); [congruence|reflexivity].
  - rewrite E. reflexivity.
Qed.

(** Keys of a step's pending records come from the pending records
    before it. *)
Lemma advance_past_keys (P : string -> Prop) k it :
  Forall P (map fst (pending it)) ->
  Forall P (map fst (pending (advance_past k it))).
Proof.
  unfold advance_past.
  destruct (pending it) as [|[k' v] rest] eqn:E; intros H.
  - rewrite E. constructor.
  - destruct (String.eqb k' k); cbn.
    + cbn in H. inversion H; auto.
    + rewrite E. assumption.
Qed.

Lemma pick_fold k srcs : pick k srcs = fold_left (pick_step k) srcs None.
Proof. reflexivity. Qed.

Lemma latest_fold k srcs : latest k srcs = fold_left (latest_step k) srcs None.
Proof. reflexivity. Qed.

Lemma pick_some k srcs :
  forall acc,
    Exists (fun it => head_key it = Some k) srcs \/ (exists v, acc = Some (k, v)) ->
    exists v, fold_left (pick_step k) srcs acc = Some (k, v).
Proof.
  induction srcs as [|it srcs IH]; intros acc H; cbn.
  - destruct H as [H|H]; [inversion H|assumption].
  - apply IH.
    assert (Hc : head_key it = Some k \/
                 Exists (fun it => head_key it = Some k) srcs \/
                 exists v, acc = Some (k, v)).
    { destruct H as [H|H]; [inversion H; subst|]; auto. }
    clear H. unfold pick_step, head_key in *.
    destruct (pending it) as [|[k' v] rest].
    + destruct Hc as [Hc|[Hc|Hc]]; [discriminate|auto|auto].
    + destruct (String.eqb_spec k' k) as [->|Hne]; [eauto|].
      destruct Hc as [Hc|[Hc|Hc]]; [congruence|auto|auto].
Qed.

Lemma pick_latest k srcs :
  Forall sorted_source srcs -> below_heads k srcs ->
  forall acc,
    fold_left (pick_step k) srcs (option_map (pair k) acc) =
    option_map (pair k) (fold_left (latest_step k) srcs acc).
Proof.
  induction srcs as [|it srcs IH]; intros Hs Hb acc; [reflexivity|].
  inversion Hs; subst. inversion Hb; subst. cbn.
  rewrite <- IH by assumption. f_equal.
  unfold pick_step, latest_step. rewrite assoc_head by assumption.
  destruct (pending it) as [|[k' v] rest]; [reflexivity|].
  destruct (String.eqb_spec k' k) as [->|]; reflexivity.
Qed.

Lemma latest_advance_other k K srcs :
  K <> k ->
  forall acc,
    fold_left (latest_step K) (map (advance_past k) srcs) acc =
    fold_left (latest_step K) srcs acc.
Proof.
  intros Hne. induction srcs as [|it srcs IH]; intros acc; [reflexivity|].
  cbn. rewrite IH. f_equal.
  unfold latest_step. rewrite advance_past_assoc by assumption. reflexivity.
Qed.

Lemma latest_advance_same k srcs :
  Forall sorted_source srcs -> below_heads k srcs ->
  forall acc, fold_left (latest_step k) (map (advance_past k) srcs) acc = acc.
Proof.
  induction srcs as [|it srcs IH]; intros Hs Hb acc; [reflexivity|].
  inversion Hs; subst. inversion Hb; subst. cbn.
  rewrite IH by assumption.
  unfold latest_step.
  rewrite assoc_none_above; [reflexivity|].
  apply advance_past_above; assumption.
Qed.

Lemma head_key_in it k :
  head_key it = Some k -> In k (map fst (pending it)).
Proof.
  unfold head_key. destruct (pending it) as [|[k' v] rest]; [discriminate|].
  intros H. inversion H; subst. left. reflexivity.
Qed.

Lemma Next_true mi mi' :
  Next mi = (true, mi') ->
  exists k v,
    min_key (sources mi) = Some k /\
    sources mi' = map (advance_past k) (sources mi) /\
    pick k (sources mi) = Some (k, v) /\
    Key mi' = k /\ Value mi' = v.
Proof.
  unfold Next. destruct (min_key (sources mi)) as [k|] eqn:E; [|discriminate].
  intros H. inversion H; subst; clear H.
  destruct (pick_some k (sources mi) None) as [v Hv].
  { left. apply min_key_in. assumption. }
  rewrite <- pick_fold in Hv.
  exists k, v. unfold Key, Value. cbn. rewrite Hv. auto.
Qed.

Lemma Next_false mi mi' :
  Next mi = (false, mi') -> min_key (sources mi) = None.
Proof.
  unfold Next. destruct (min_key (sources mi)); [discriminate|auto].
Qed.

(** Every key the merge yields is a key of some source. *)
Lemma merged_keys (P : string -> Prop) mi :
  Forall (fun it => Forall P (map fst (pending it))) (sources mi) ->
  Forall P (map fst (merged mi)).
Proof.
  funelim (merged mi); intros Hsrc; [|constructor].
  destruct (Next_true _ _ e) as (k & v & Hmin & Hsrcs & _ & Hk & _).
  cbn. constructor.
  - rewrite Hk. apply min_key_in in Hmin.
    apply Exists_exists in Hmin. destruct Hmin as (it & Hin & Hh).
    rewrite Forall_forall in Hsrc. specialize (Hsrc it Hin).
    rewrite Forall_forall in Hsrc. apply Hsrc, head_key_in, Hh.
  - apply H. rewrite Hsrcs. apply Forall_map.
    eapply Forall_impl; [|exact Hsrc].
    intros it Hit. apply advance_past_keys. assumption.
Qed.

(** The merge of strictly sorted sources is strictly sorted, and for
    every key it holds exactly the record of the most recent source
    that has the key. *)
Lemma merged_spec mi :
  Forall sorted_source (sources mi) ->
  StronglySorted key_lt (map fst (merged mi)) /\
  forall K,
    with_key K (merged mi) =
    match latest K (sources mi) with
    | Some v => [(K, v)]
    | None => []
    end.
Proof.
  funelim (merged mi); intros Hs.
  - destruct (Next_true _ _ e) as (k & v & Hmin & Hsrcs & Hpick & Hk & Hv).
    pose proof (min_key_below _ _ Hmin) as Hb.
    assert (Hs' : Forall sorted_source (sources mi')).
    { rewrite Hsrcs. apply Forall_map.
      eapply Forall_impl; [|exact Hs]. intros it. apply advance_past_sorted. }
    destruct (H Hs') as [IHs IHk]. clear H.
    assert (Habove : Forall (key_lt k) (map fst (merged mi'))).
    { apply merged_keys. rewrite Hsrcs. apply Forall_map.
      unfold below_heads in Hb.
      rewrite Forall_forall in Hs, Hb. apply Forall_forall.
      intros it Hin.
      apply advance_past_above; [apply Hs|apply Hb]; assumption. }
    assert (Hlatest : latest k (sources mi) = Some v).
    { pose proof (pick_latest k (sources mi) Hs Hb None) as Hp.
      cbn [option_map] in Hp. rewrite <- pick_fold, <- latest_fold, Hpick in Hp.
      destruct (latest k (sources mi)); cbn in Hp; congruence. }
    rewrite Hk, Hv. cbn [map fst]. split.
    + constructor; assumption.
    + intros K. unfold with_key. cbn [filter fst].
      fold (with_key K (merged mi')). rewrite IHk, Hsrcs.
      destruct (String.eqb_spec k K) as [<-|Hne].
      * rewrite Hlatest, latest_fold, latest_advance_same by assumption.
        reflexivity.
      * rewrite !latest_fold, latest_advance_other by congruence.
        reflexivity.
  - cbn. split; [constructor|].
    intros K.
    pose proof (Next_false _ _ e) as Hnone.
    apply min_key_none in Hnone.
    assert (Hl : forall acc, fold_left (latest_step K) (sources mi) acc = acc).
    { clear Hs. induction Hnone as [|it srcs Hit Hrest IH]; intros acc;
        [reflexivity|].
      cbn. rewrite IH. unfold latest_step. rewrite Hit. reflexivity. }
    rewrite latest_fold, Hl. reflexivity.
Qed.

Lemma latest_decompose K older it newer v :
  assoc K (pending it) = Some v ->
  Forall (fun n => assoc K (pending n) = None) newer ->
  latest K (older ++ it :: newer) = Some v.
Proof.
  intros Hit Hnewer. rewrite latest_fold, fold_left_app. cbn.
  unfold latest_step at 2. rewrite Hit.
  clear Hit. induction Hnewer as [|n newer Hn _ IH]; [reflexivity|].
  cbn. unfold latest_step at 2. rewrite Hn. assumption.
Qed.

Lemma latest_absent K srcs :
  Forall (fun n => assoc K (pending n) = None) srcs -> latest K srcs = None.
Proof.
  intros H. rewrite latest_fold.
  induction H as [|n srcs Hn _ IH]; [reflexivity|].
  cbn. unfold latest_step at 2. rewrite Hn. assumption.
Qed.

Example merged_abc :
  merged (NewMergingIterator abc_iters) = [("a", "2"); ("b", "3")].
Proof. reflexivity. Qed.

(** *** Reading a log *)

Lemma flat_map_map_nil {A C D} (f : C -> list D) (g : A -> C) l :
  (forall x, f (g x) = []) -> flat_map f (map g l) = [].
Proof.
  intros H. induction l as [|x l IH]; cbn; [reflexivity|].
  rewrite H, IH. reflexivity.
Qed.

Lemma filter_map_nil {A C} (p : C -> bool) (g : A -> C) l :
  (forall x, p (g x) = false) -> filter p (map g l) = [].
Proof.
  intros H. induction l as [|x l IH]; cbn; [reflexivity|].
  rewrite H, IH. reflexivity.
Qed.

Lemma written_set_events out : written (map set_event out) = out.
Proof.
  unfold written. induction out as [|[k v] out IH]; cbn; [reflexivity|].
  rewrite IH. reflexivity.
Qed.

Lemma skipn_length_app {A} (l r : list A) : skipn (length l) (l ++ r) = r.
Proof. induction l as [|x l IH]; [reflexivity|exact IH]. Qed.

Lemma sorted_nth_error {A} (R : A -> A -> Prop) (l : list A) :
  StronglySorted R l ->
  forall i j a b,
    i < j -> nth_error l i = Some a -> nth_error l j = Some b -> R a b.
Proof.
  induction 1 as [|x l Hs IH Hx]; intros i j a b Hij Ha Hb.
  - destruct i; discriminate.
  - destruct j as [|j]; [lia|]. cbn in Hb. destruct i as [|i].
    + cbn in Ha. inversion Ha; subst.
      rewrite Forall_forall in Hx. apply Hx. eapply nth_error_In, Hb.
    + cbn in Ha. apply (IH i j); auto. lia.
Qed.

Ltac project_calls :=
  unfold completed_calls, merged_calls, occurrences, written, filter_writes,
    opened, read_ok, read_failed;
  rewrite ?filter_app, ?flat_map_app;
  rewrite ?filter_map_nil, ?flat_map_map_nil by reflexivity;
  fold written; rewrite ?written_set_events; cbn.

(** ** One bucket *)

Section Bucket.

Context {B : Backend}.

Lemma set_events_worker fs out : Forall (worker_event fs) (map set_event out).
Proof. apply Forall_map, Forall_forall. intros r _. exact I. Qed.

Lemma set_events_not_failed out : existsb failed (map set_event out) = false.
Proof. induction out; auto. Qed.

Lemma readChunks_spec fs files :
  forall iters s,
  exists new,
    log (snd (readChunks fs files iters s)) = log s ++ new /\
    Forall (worker_event fs) new /\
    existsb failed new =
      match fst (readChunks fs files iters s) with
      | inl _ => true
      | inr _ => false
      end.
Proof.
  induction files as [|f rest IH]; intros iters s.
  - exists []. cbn. rewrite app_nil_r. auto.
  - cbn. unfold bind, readFile.
    destruct (ReadFile (dataFileName (path fs) f) (world s)) as [[e|data] w'] eqn:E.
    + exists [EvReadFile (dataFileName (path fs) f) (Some e)]. cbn.
      split; [reflexivity|]. split; [|reflexivity].
      constructor; [exact I|constructor].
    + cbn.
      destruct (IH (iters ++ [NewChunkIterator data])
                  (mkSys w' (log s ++ [EvReadFile (dataFileName (path fs) f) None])))
        as (new & Hl & Hw & Hf).
      exists (EvReadFile (dataFileName (path fs) f) None :: new).
      rewrite Hl. cbn [log]. rewrite <- app_assoc. cbn.
      split; [reflexivity|]. split; [|assumption].
      constructor; [exact I|assumption].
Qed.

Lemma compactBucket_spec (c : Compactor) (b : bucket) (s : Sys) :
  exists new,
    log (snd (compactBucket c b s)) = log s ++ new /\
    Forall (worker_event (c_fs c)) new /\
    b_files (fst (fst (compactBucket c b s))) = sortByTime (b_files b) /\
    ((existsb failed new = true /\
      (exists e, snd (fst (compactBucket c b s)) = errStats e) /\
      b_processed (fst (fst (compactBucket c b s))) = b_processed b)
     \/
     (existsb failed new = false /\
      err (snd (fst (compactBucket c b s))) = None /\
      b_processed (fst (fst (compactBucket c b s))) = true)).
Proof.
  destruct (compactBucket c b s) as [[b' cs] s'] eqn:E. cbn [fst snd].
  unfold compactBucket, bind, getTime in E. cbn [b_files b_processed] in E.
  destruct (readChunks_spec (c_fs c) (sortByTime (b_files b)) [] s)
    as (n1 & L1 & W1 & F1).
  destruct (readChunks (c_fs c) (sortByTime (b_files b)) [] s)
    as [[e|iters] s1] eqn:E1; cbn [fst snd] in *.
  { inversion E; subst. exists n1. cbn. eauto 10. }
  unfold newSSTable in E.
  destruct (NewSSTable (c_fs c) (world s1)) as [[e|sst] w2] eqn:E2.
  { inversion E; subst. exists (n1 ++ [EvNewSSTable (c_fs c) (Some e)]).
    cbn. rewrite L1, <- app_assoc, existsb_app, F1. cbn.
    split; [reflexivity|]. split; [|eauto 10].
    apply Forall_app. split; [assumption|]. repeat constructor. }
  unfold newWriter in E. cbn [world log] in E.
  set (w := NewWriter sst (UseCompression (options (c_fs c)))) in *.
  set (s2 := mkSys w2 _) in E.
  destruct (mergeLoop_merged w (NewMergingIterator iters) [] s2) as [L3 _].
  destruct (mergeLoop w (NewMergingIterator iters) [] s2)
    as [[mi filter] s3] eqn:E3; cbn [fst snd] in L3.
  set (out := merged (NewMergingIterator iters)) in *.
  assert (L3' : log s3 = log s ++ n1 ++
            [EvNewSSTable (c_fs c) None;
             EvNewWriter (UseCompression (options (c_fs c)))] ++
            map set_event out).
  { rewrite L3. subst s2. cbn [log]. rewrite L1, <- !app_assoc. reflexivity. }
  assert (W3 : Forall (worker_event (c_fs c))
                 (n1 ++ [EvNewSSTable (c_fs c) None;
                         EvNewWriter (UseCompression (options (c_fs c)))] ++
                  map set_event out)).
  { apply Forall_app. split; [assumption|].
    apply Forall_app. split; [repeat constructor|apply set_events_worker]. }
  assert (F3 : existsb failed
                 (n1 ++ [EvNewSSTable (c_fs c) None;
                         EvNewWriter (UseCompression (options (c_fs c)))] ++
                  map set_event out) = false).
  { rewrite !existsb_app, F1, set_events_not_failed. reflexivity. }
  clear L3 E3 E1 L1 W1 F1 E2. revert L3' W3 F3.
  generalize (n1 ++ [EvNewSSTable (c_fs c) None;
                     EvNewWriter (UseCompression (options (c_fs c)))] ++
              map set_event out).
  intros n3 L3 W3 F3.
  unfold fWriteTo, fClose, wClose, ret in E.
  destruct (filterWriteTo filter sst (world s3)) as [[e|] w4] eqn:E4.
  { inversion E; subst. cbn [log].
    exists (n3 ++ [EvFilterWriteTo filter (Some e); EvFilterfileClose]).
    rewrite L3, <- !app_assoc, existsb_app, F3. cbn.
    split; [reflexivity|]. split; [|eauto 10].
    apply Forall_app. split; [assumption|]. repeat constructor. }
  cbn [world log] in E.
  destruct (writerClose w w4) as [[e|] w5] eqn:E5.
  { inversion E; subst. cbn [log].
    exists (n3 ++ [EvFilterWriteTo filter None; EvWriterClose (Some e);
                   EvFilterfileClose]).
    rewrite L3, <- !app_assoc, existsb_app, F3. cbn.
    split; [reflexivity|]. split; [|eauto 10].
    apply Forall_app. split; [assumption|]. repeat constructor. }
  inversion E; subst. cbn [log].
  exists (n3 ++ [EvFilterWriteTo filter None; EvWriterClose None;
                 EvFilterfileClose]).
  rewrite L3, <- !app_assoc, existsb_app, F3. cbn.
  split; [reflexivity|]. split; [|auto].
  apply Forall_app. split; [assumption|]. repeat constructor.
Qed.

Lemma readContents_app fs pre post w :
  readContents fs (pre ++ post) w =
  match readContents fs pre w with
  | (inl e, w') => (inl e, w')
  | (inr d1, w') =>
      match readContents fs post w' with
      | (inl e, w'') => (inl e, w'')
      | (inr d2, w'') => (inr (d1 ++ d2), w'')
      end
  end.
Proof.
  revert w. induction pre as [|f pre IH]; intros w; cbn [readContents app].
  - destruct (readContents fs post w) as [[e|d] w']; reflexivity.
  - destruct (ReadFile (dataFileName (path fs) f) w) as [[e|data] w'];
      [reflexivity|].
    rewrite IH. destruct (readContents fs pre w') as [[e|d1] w2];
      [reflexivity|].
    destruct (readContents fs post w2) as [[e|d2] w3]; reflexivity.
Qed.

Lemma readContents_length fs files :
  forall w datas,
    fst (readContents fs files w) = inr datas -> length datas = length files.
Proof.
  induction files as [|f rest IH]; intros w datas; cbn [readContents].
  - intros H. inversion H. reflexivity.
  - destruct (ReadFile (dataFileName (path fs) f) w) as [[e|data] w'];
      [discriminate|].
    specialize (IH w').
    destruct (readContents fs rest w') as [[e|ds] w2]; [discriminate|].
    intros H. inversion H; subst. cbn. f_equal. apply IH. reflexivity.
Qed.

(** The loop of lines 111-118 against [readContents]: either every file
    is read and the iterators are those of the contents, in order, or
    the files before the first failing read are read and nothing
    after. *)
Lemma readChunks_trace fs files :
  forall iters s,
    (exists datas,
       fst (readContents fs files (world s)) = inr datas /\
       fst (readChunks fs files iters s)
         = inr (iters ++ map NewChunkIterator datas) /\
       world (snd (readChunks fs files iters s))
         = snd (readContents fs files (world s)) /\
       log (snd (readChunks fs files iters s))
         = log s ++ map (read_ok fs) files)
    \/
    (exists pre f post datas e,
       files = pre ++ f :: post /\
       fst (readContents fs pre (world s)) = inr datas /\
       fst (ReadFile (dataFileName (path fs) f)
              (snd (readContents fs pre (world s)))) = inl e /\
       fst (readChunks fs files iters s) = inl e /\
       log (snd (readChunks fs files iters s))
         = log s ++ map (read_ok fs) pre ++ [read_failed fs f e]).
Proof.
  induction files as [|f rest IH]; intros iters s.
  - left. exists []. cbn. rewrite !app_nil_r. auto.
  - cbn [readChunks readContents]. unfold bind, readFile.
    destruct (ReadFile (dataFileName (path fs) f) (world s))
      as [[e|data] w'] eqn:E.
    + right. exists [], f, rest, [], e. cbn. rewrite E. auto.
    + cbn [err_of].
      destruct (IH (iters ++ [NewChunkIterator data])
                  (mkSys w' (log s ++ [EvReadFile (dataFileName (path fs) f) None])))
        as [(datas & Hc & Hr & Hw & Hl)
           |(pre & g & post & datas & e & Hf & Hc & He & Hr & Hl)];
        cbn [world log] in *.
      * left. exists (data :: datas).
        rewrite Hr, Hw, Hl.
        destruct (readContents fs rest w') as [[e|ds] w2]; [discriminate|].
        cbn in Hc. inversion Hc; subst ds.
        cbn [fst snd map]. rewrite <- !app_assoc. cbn. auto.
      * right. exists (f :: pre), g, post, (data :: datas), e.
        rewrite Hr, Hl, Hf. cbn [readContents]. rewrite E.
        destruct (readContents fs pre w') as [[e'|ds] w2]; [discriminate|].
        cbn in Hc. inversion Hc; subst ds.
        cbn [fst snd map] in *. rewrite <- !app_assoc. cbn. auto.
Qed.

(** The calls of one [compactBucket], by outcome. *)
Lemma compactBucket_calls (c : Compactor) (b : bucket) (s : Sys) :
  exists new,
    log (snd (compactBucket c b s)) = log s ++ new /\
    bucket_calls (c_fs c) (sortByTime (b_files b)) (world s) new
      (err (snd (fst (compactBucket c b s)))).
Proof.
  destruct (compactBucket c b s) as [[b' cs] s'] eqn:E. cbn [fst snd].
  unfold compactBucket, bind, getTime in E. cbn [b_files b_processed] in E.
  destruct (readChunks_trace (c_fs c) (sortByTime (b_files b)) [] s)
    as [(datas & Hd & Hr & Hw & L1)|(pre & f & post & datas & e & Hf & Hd & He & Hr & L1)];
    destruct (readChunks (c_fs c) (sortByTime (b_files b)) [] s)
      as [r s1]; cbn [fst snd app] in *; subst r.
  2:{ inversion E; subst. eexists. split; [exact L1|].
      cbn [err errStats].
      apply (calls_read_failed _ _ _ pre f post datas e Hf Hd He). }
  unfold newSSTable in E.
  destruct (NewSSTable (c_fs c) (world s1)) as [[e|sst] w2] eqn:E2.
  { inversion E; subst. cbn [log err_of]. rewrite L1, <- app_assoc.
    eexists. split; [reflexivity|].
    apply (calls_create_failed _ _ _ datas e Hd).
    rewrite <- Hw, E2. reflexivity. }
  assert (Hsst : fst (NewSSTable (c_fs c)
                   (snd (readContents (c_fs c) (sortByTime (b_files b))
                           (world s)))) = inr sst).
  { rewrite <- Hw, E2. reflexivity. }
  unfold newWriter in E. cbn [world log err_of] in E.
  set (w := NewWriter sst (UseCompression (options (c_fs c)))) in *.
  match type of E with
  | context [mergeLoop w ?mi [] ?s2] =>
      destruct (mergeLoop_merged w mi [] s2) as [L3 F3];
      destruct (mergeLoop w mi [] s2) as [[mi' filter] s3] eqn:E3
  end.
  fold (merge_of datas) in L3, F3.
  cbn [fst snd log app] in L3, F3. subst filter.
  assert (L3' : log s3 = log s ++
                 merged_calls (c_fs c) (sortByTime (b_files b)) datas).
  { rewrite L3, L1. unfold merged_calls, opened.
    rewrite <- !app_assoc. reflexivity. }
  clear L3 L1 E3 E2.
  unfold fWriteTo, fClose, wClose, ret in E.
  destruct (filterWriteTo (map fst (merge_of datas)) sst (world s3))
    as [[e|] w4] eqn:E4.
  { inversion E; subst. cbn [log]. rewrite L3', <- !app_assoc.
    eexists. split; [reflexivity|]. cbn [err errStats].
    apply (calls_filter_failed (c_fs c) _ _ datas sst e Hd Hsst). }
  cbn [world log] in E.
  destruct (writerClose w w4) as [[e|] w5] eqn:E5.
  { inversion E; subst. cbn [log]. rewrite L3', <- !app_assoc.
    eexists. split; [reflexivity|]. cbn [err errStats].
    apply (calls_close_failed (c_fs c) _ _ datas sst e Hd Hsst). }
  inversion E; subst. cbn [log]. rewrite L3', <- !app_assoc.
  eexists. split; [reflexivity|]. cbn [err].
  apply (calls_done (c_fs c) _ _ datas sst Hd Hsst).
Qed.

(** When every read and the creation of the segment succeed, the
    records handed to [w.Set] are the merge of the contents read. *)
Lemma compactBucket_writes (c : Compactor) (b : bucket) (s : Sys)
    (datas : list (list Byte.byte)) (sst : SSTable) :
  fst (readContents (c_fs c) (sortByTime (b_files b)) (world s)) = inr datas ->
  fst (NewSSTable (c_fs c)
         (snd (readContents (c_fs c) (sortByTime (b_files b)) (world s))))
    = inr sst ->
  exists new,
    log (snd (compactBucket c b s)) = log s ++ new /\
    written new = merge_of datas.
Proof.
  intros Hd Hs. destruct (compactBucket_calls c b s) as (new & Hl & Hc).
  exists new. split; [assumption|].
  inversion Hc as [pre f post ds e Hf Hp He|ds e Hd' He|ds t e Hd' _
                  |ds t e Hd' _|ds t Hd' _]; subst.
  - exfalso. rewrite Hf, readContents_app in Hd. cbn [readContents] in Hd.
    destruct (readContents (c_fs c) pre (world s)) as [[e'|d1] w1];
      [discriminate|]. cbn [snd] in He.
    destruct (ReadFile (dataFileName (path (c_fs c)) f) w1) as [[e'|d] w2];
      discriminate.
  - congruence.
  - rewrite Hd in Hd'. inversion Hd'; subst.
    project_calls. rewrite ?app_nil_r. reflexivity.
  - rewrite Hd in Hd'. inversion Hd'; subst.
    project_calls. rewrite ?app_nil_r. reflexivity.
  - rewrite Hd in Hd'. inversion Hd'; subst.
    project_calls. rewrite ?app_nil_r. reflexivity.
Qed.

End Bucket.

(** ** The merge of a bucket's segments *)

Section MergeCorrectness.

Context {B : Backend}.

(** C1: take a bucket whose files, in the order [sort.Sort] leaves them
    at line 110, run from the oldest to the most recent ([time] gives
    the creation time the ordering policy reads off a name), each
    holding records strictly increasing by key, and let every read and
    the creation of the new segment succeed.  Then the records
    [compactBucket] hands to [w.Set], in order, have strictly increasing
    keys.  If the segment [f] holds [K] with value [v] and every other
    segment of the bucket holding [K] is older than [f], exactly one
    record with key [K] is written and it is [(K, v)].  A key held by no
    segment is not written. *)
Theorem compactBucket_last_writer_wins (c : Compactor) (b : bucket) (s : Sys)
    (time : string -> Z) (datas : list (list Byte.byte)) (sst : SSTable) :
  oldest_first time (sortByTime (b_files b)) ->
  fst (readContents (c_fs c) (sortByTime (b_files b)) (world s)) = inr datas ->
  Forall (fun d => StronglySorted key_lt (map fst (decodeChunk d))) datas ->
  fst (NewSSTable (c_fs c)
         (snd (readContents (c_fs c) (sortByTime (b_files b)) (world s))))
    = inr sst ->
  exists new,
    log (snd (compactBucket c b s)) = log s ++ new /\
    StronglySorted key_lt (map fst (written new)) /\
    (forall K i f d v,
        nth_error (sortByTime (b_files b)) i = Some f ->
        nth_error datas i = Some d ->
        assoc K (decodeChunk d) = Some v ->
        (forall j g d',
            j <> i ->
            nth_error (sortByTime (b_files b)) j = Some g ->
            nth_error datas j = Some d' ->
            assoc K (decodeChunk d') <> None ->
            (time g < time f)%Z) ->
        with_key K (written new) = [(K, v)]) /\
    (forall K,
        Forall (fun d => assoc K (decodeChunk d) = None) datas ->
        with_key K (written new) = []).
Proof.
  intros Ht Hd Hk Hs.
  destruct (compactBucket_writes c b s datas sst Hd Hs) as (new & Hl & Hw).
  exists new. split; [exact Hl|]. rewrite Hw. unfold merge_of.
  assert (Hsrc : Forall sorted_source (map NewChunkIterator datas)).
  { apply Forall_map. eapply Forall_impl; [|exact Hk]. intros d H. exact H. }
  destruct (merged_spec (NewMergingIterator (map NewChunkIterator datas)) Hsrc)
    as [Hsorted Hkey].
  cbn [sources NewMergingIterator] in Hkey.
  pose proof (readContents_length _ _ _ _ Hd) as Hlen.
  split; [exact Hsorted|]. split.
  - intros K i f d v Hf Hdi Hv Hrecent. rewrite Hkey.
    destruct (nth_error_split datas i Hdi) as (d1 & d2 & Hsplit & Hi).
    rewrite Hsplit, map_app. cbn [map].
    rewrite (latest_decompose K _ (NewChunkIterator d) _ v);
      [reflexivity|exact Hv|].
    apply Forall_map, Forall_forall. intros d' Hin.
    cbn [NewChunkIterator chunkIteratorOf pending].
    destruct (assoc K (decodeChunk d')) as [v'|] eqn:Ea; [exfalso|reflexivity].
    destruct (In_nth_error _ _ Hin) as [k Hk'].
    assert (Hj : nth_error datas (length d1 + S k) = Some d').
    { rewrite Hsplit, nth_error_app2 by lia.
      replace (length d1 + S k - length d1) with (S k) by lia. exact Hk'. }
    destruct (nth_error (sortByTime (b_files b)) (length d1 + S k))
      as [g|] eqn:Eg.
    + assert (Hle : (time f <= time g)%Z).
      { apply (sorted_nth_error _ _ Ht i (length d1 + S k)); auto. lia. }
      assert (Hlt : (time g < time f)%Z).
      { apply (Hrecent (length d1 + S k) g d'); auto; [lia|congruence]. }
      lia.
    + apply nth_error_None in Eg.
      assert (length d1 + S k < length datas)
        by (apply nth_error_Some; congruence).
      lia.
  - intros K Habs. rewrite Hkey, latest_absent; [reflexivity|].
    apply Forall_map. exact Habs.
Qed.

End MergeCorrectness.

Lemma compactBucket_last_writer_wins_witness :
  let b := mkBucket ["A"; "B"; "C"] false in
  let datas := [[Byte.x61; Byte.x31]; [Byte.x61; Byte.x32];
                [Byte.x62; Byte.x33]] in
  exists new,
    log (snd (compactBucket Mem.c3 b Mem.s3)) = log Mem.s3 ++ new /\
    StronglySorted key_lt (map fst (written new)) /\
    (forall K i f d v,
        nth_error (@sortByTime Mem.backend (b_files b)) i = Some f ->
        nth_error datas i = Some d ->
        assoc K (@decodeChunk Mem.backend d) = Some v ->
        (forall j g d',
            j <> i ->
            nth_error (@sortByTime Mem.backend (b_files b)) j = Some g ->
            nth_error datas j = Some d' ->
            assoc K (@decodeChunk Mem.backend d') <> None ->
            (abc_time g < abc_time f)%Z) ->
        with_key K (written new) = [(K, v)]) /\
    (forall K,
        Forall (fun d => assoc K (@decodeChunk Mem.backend d) = None) datas ->
        with_key K (written new) = []).
Proof.
  intros b datas.
  apply (compactBucket_last_writer_wins (B := Mem.backend)
           Mem.c3 b Mem.s3 abc_time datas 0).
  - repeat constructor; vm_compute; discriminate.
  - reflexivity.
  - repeat constructor.
  - reflexivity.
Defined.

(** On that bucket the value of the more recent B is stored for the key
    both A and B hold. *)
Example compactBucket_abc :
  written (log (snd (compactBucket Mem.c3 (mkBucket ["A"; "B"; "C"] false)
                       Mem.s3)))
  = [("a", "2"); ("b", "3")].
Proof. reflexivity. Qed.

(** ** The worker loop and the deletion step *)

Section Loop.

Context {B : Backend}.

Lemma compactBuckets_from_cons c b rest s :
  compactBuckets_from c (b :: rest) s =
  let '(b', cs, s1) := compactBucket c b s in
  let '(bs', css, s2) := compactBuckets_from c rest s1 in
  (b' :: bs', cs :: css, s2).
Proof.
  cbn [compactBuckets_from]. unfold bind, ret.
  destruct (compactBucket c b s) as [[b' cs] s1].
  destruct (compactBuckets_from c rest s1) as [[bs' css] s2].
  reflexivity.
Qed.

Lemma compactBuckets_from_app c pre post s :
  compactBuckets_from c (pre ++ post) s =
  let '(bs1, st1, s1) := compactBuckets_from c pre s in
  let '(bs2, st2, s2) := compactBuckets_from c post s1 in
  (bs1 ++ bs2, st1 ++ st2, s2).
Proof.
  revert s. induction pre as [|b pre IH]; intros s.
  - cbn. unfold ret. destruct (compactBuckets_from c post s) as [[bs2 st2] s2].
    reflexivity.
  - rewrite <- app_comm_cons, !compactBuckets_from_cons.
    destruct (compactBucket c b s) as [[b' cs] s1].
    rewrite IH.
    destruct (compactBuckets_from c pre s1) as [[bs1 st1] s1'].
    destruct (compactBuckets_from c post s1') as [[bs2 st2] s2].
    reflexivity.
Qed.

(** The loop returns one bucket and one record per bucket it was given;
    it only makes worker calls, which split into one run of calls per
    bucket, and a bucket's record carries no error exactly when none of
    its calls failed; on buckets that start unprocessed a bucket ends
    processed exactly when its record carries no error. *)
Lemma compactBuckets_from_spec c bs :
  forall s,
  exists new,
    log (snd (compactBuckets_from c bs s)) = log s ++ new /\
    Forall (worker_event (c_fs c)) new /\
    length (fst (fst (compactBuckets_from c bs s))) = length bs /\
    length (snd (fst (compactBuckets_from c bs s))) = length bs /\
    (exists calls,
       new = concat calls /\
       Forall2 (fun seg cs => existsb failed seg = false <-> err cs = None)
         calls (snd (fst (compactBuckets_from c bs s)))) /\
    (Forall fresh bs ->
     Forall2 (fun b' cs => b_processed b' = true <-> err cs = None)
       (fst (fst (compactBuckets_from c bs s)))
       (snd (fst (compactBuckets_from c bs s)))).
Proof.
  induction bs as [|b rest IH]; intros s.
  - exists []. cbn. rewrite app_nil_r.
    split; [reflexivity|]. split; [constructor|].
    split; [reflexivity|]. split; [reflexivity|]. split; [|constructor].
    exists []. split; [reflexivity|constructor].
  - rewrite compactBuckets_from_cons.
    destruct (compactBucket_spec c b s) as (n1 & L1 & W1 & _ & Hcase).
    destruct (compactBucket c b s) as [[b' cs] s1]; cbn [fst snd] in *.
    destruct (IH s1) as (n2 & L2 & W2 & Hlb & Hls & (calls & Hcalls & Hseg) & Hrel).
    destruct (compactBuckets_from c rest s1) as [[bs' css] s2];
      cbn [fst snd] in *.
    exists (n1 ++ n2). rewrite L2, L1, <- app_assoc.
    split; [reflexivity|]. split; [apply Forall_app; auto|].
    cbn [length]. split; [congruence|]. split; [congruence|]. split.
    + exists (n1 :: calls). split; [cbn; congruence|].
      constructor; [|assumption].
      destruct Hcase as [(Hf & [e ->] & _)|(Hf & He & _)]; rewrite Hf.
      * cbn. split; discriminate.
      * rewrite He. split; reflexivity.
    + intros Hfresh. inversion Hfresh as [|? ? Hb Hrest]; subst.
      constructor; [|auto].
      destruct Hcase as [(_ & [e ->] & Hp)|(_ & He & Hp)].
      * unfold fresh in Hb. rewrite Hp, Hb. cbn. split; discriminate.
      * rewrite Hp, He. split; reflexivity.
Qed.

(** The passes of the loop give its buckets, its records and its log. *)
Lemma bucket_runs_loop c bs :
  forall s,
    map planned (bucket_runs c bs s) = bs /\
    fst (fst (compactBuckets_from c bs s)) = map finished (bucket_runs c bs s) /\
    snd (fst (compactBuckets_from c bs s)) = map reported (bucket_runs c bs s) /\
    log (snd (compactBuckets_from c bs s))
      = log s ++ concat (map made (bucket_runs c bs s)).
Proof.
  induction bs as [|b rest IH]; intros s.
  - cbn. rewrite app_nil_r. auto.
  - rewrite compactBuckets_from_cons. cbn [bucket_runs map concat].
    cbn [planned finished reported made].
    destruct (compactBucket_calls c b s) as (new & Hl & _).
    destruct (compactBucket c b s) as [[b' cs] s1]; cbn [fst snd] in *.
    destruct (IH s1) as (Hp & Hb & Hc & Hlog).
    destruct (compactBuckets_from c rest s1) as [[bs' css] s2];
      cbn [fst snd] in *.
    unfold calls_since. rewrite Hl, skipn_length_app, Hlog, Hl, <- app_assoc.
    repeat split; congruence.
Qed.

Lemma worker_event_not_delete fs e : worker_event fs e -> is_delete e = false.
Proof. destruct e; cbn; auto. contradiction. Qed.

Lemma bucket_runs_pass c bs :
  Forall fresh bs ->
  forall s, Forall (pass_ok (c_fs c)) (bucket_runs c bs s).
Proof.
  induction 1 as [|b rest Hb _ IH]; intros s; [constructor|].
  cbn [bucket_runs]. constructor; [|apply IH].
  unfold pass_ok, deletions_after, deletions_for.
  cbn [planned finished reported made entry fst snd].
  destruct (compactBucket_calls c b s) as (new & Hl & Hc).
  destruct (compactBucket_spec c b s) as (n & Hn & Hw & Hfiles & Hcase).
  assert (n = new) by (rewrite Hn in Hl; eapply app_inv_head; eauto).
  subst n.
  unfold calls_since. rewrite Hl, skipn_length_app, Hfiles.
  destruct (compactBucket c b s) as [[b' cs] s1]; cbn [fst snd] in *.
  assert (Hiff : b_processed b' = true <-> err cs = None).
  { destruct Hcase as [(_ & [e ->] & Hp)|(_ & He & Hp)].
    - unfold fresh in Hb. rewrite Hp, Hb. cbn. split; discriminate.
    - rewrite Hp, He. split; reflexivity. }
  split; [exact Hb|].
  split; [reflexivity|]. split; [exact Hc|]. split; [exact Hiff|].
  split; [|split].
  - intros Hp. apply Hiff in Hp. rewrite Hp in Hc.
    inversion Hc as [| | | |datas sst Hd Hs]; subst. eauto.
  - destruct (b_processed b'), (err cs); try reflexivity.
    + destruct Hiff as [Hiff _]. specialize (Hiff eq_refl). discriminate.
    + destruct Hiff as [_ Hiff]. specialize (Hiff eq_refl). discriminate.
  - eapply Forall_impl; [|exact Hw]. intros e.
    apply worker_event_not_delete.
Qed.

Lemma deleteFiles_log fs files :
  forall s,
    log (snd (deleteFiles fs files s)) = log s ++ map EvDeleteSSTable files.
Proof.
  induction files as [|f rest IH]; intros s; cbn.
  - rewrite app_nil_r. reflexivity.
  - unfold bind, deleteSSTable. rewrite IH. cbn [log].
    rewrite <- app_assoc. reflexivity.
Qed.

Lemma deleteProcessed_log fs bs :
  forall s,
    log (snd (deleteProcessed fs bs s)) =
    log s ++
    flat_map (fun b => if b_processed b then map EvDeleteSSTable (b_files b)
                       else []) bs.
Proof.
  induction bs as [|b rest IH]; intros s; cbn.
  - rewrite app_nil_r. reflexivity.
  - unfold bind. destruct (b_processed b).
    + destruct (deleteFiles fs (b_files b) s) as [u s1] eqn:E.
      rewrite IH. pose proof (deleteFiles_log fs (b_files b) s) as Hd.
      rewrite E in Hd. cbn [snd] in Hd. rewrite Hd, <- app_assoc. reflexivity.
    + unfold ret. rewrite IH. reflexivity.
Qed.

End Loop.

(** ** Compact as a whole *)

Section Run.

Context {B : Backend}.

(** The phases of a [Compact] that passed the gate and returned. *)
Lemma Compact_open fuel c s c' out s' :
  shouldCompact c = true ->
  Compact fuel c s = Returned (c', out, s') ->
  exists c1 bs' stats s1,
    makeBuckets fuel c (slice_elems (c_files c)) = Returned c1 /\
    compactBuckets_from c1 (c_buckets c1) s = (bs', stats, s1) /\
    c' = with_buckets c1 bs' /\
    out = map Report stats /\
    s' = snd (deleteProcessed (c_fs c1) bs' s1).
Proof.
  intros Hgate E. unfold Compact in E. rewrite Hgate in E. cbn [negb] in E.
  destruct (makeBuckets fuel c (slice_elems (c_files c))) as [c1|c1] eqn:Em;
    [|discriminate].
  unfold compactBuckets, bind, ret in E.
  destruct (compactBuckets_from c1 (c_buckets c1) s) as [[bs' stats] s1] eqn:El.
  cbn [fst snd] in E.
  unfold deleteProcessedFiles in E. cbn [with_buckets c_fs c_buckets] in E.
  destruct (deleteProcessed (c_fs c1) bs' s1) as [u s2] eqn:Ed.
  inversion E; subst.
  exists c1, bs', stats, s1. rewrite Ed. repeat split; auto.
Qed.

(** A [Compact] that passes the gate returns: the candidate list then
    has more than [minBucketSize] files, which [makeBuckets] splits
    within a depth of the number of files. *)
Lemma Compact_returns fuel c s :
  shouldCompact c = true ->
  slice_len (c_files c) <= fuel ->
  exists c' out s', Compact fuel c s = Returned (c', out, s').
Proof.
  intros Hgate Hfuel.
  pose proof (proj1 (shouldCompact_true_iff c) Hgate) as Hlen.
  unfold slice_len in *.
  destruct (makeBuckets_total c (slice_elems (c_files c)) ltac:(lia))
    as (new & Hm & _).
  unfold Compact. rewrite Hgate, (Hm fuel Hfuel). cbn [negb].
  destruct (compactBuckets _ s) as [[c2 results] s1].
  destruct (deleteProcessedFiles c2 s1) as [u s2]. eauto.
Qed.

(** C2, for a compactor none of whose buckets is marked processed when
    [Compact] is called: a [Compact] that passes the gate returns, and
    the run is one pass of [compactBucket] per planned bucket, in order.
    In each pass the bucket's files are read in sorted order from the
    world the pass starts in and the calls are those of one of the five
    forms of [bucket_calls]; the bucket is left processed exactly when
    its record carries no error, and then every file was read, the
    segment and its writer were opened, every merged record was passed
    to [w.Set], and the filter write and [w.Close] succeeded -- these
    are all the calls of the pass.  The [DeleteSSTable] calls of the run
    come after the last pass, bucket by bucket: every file of a bucket
    whose record carries no error, and none of a bucket whose record
    carries one, whose flag is false. *)
Theorem Compact_deletes_iff_no_error (fuel : nat) (c : Compactor) (s : Sys) :
  Forall fresh (c_buckets c) ->
  shouldCompact c = true ->
  slice_len (c_files c) <= fuel ->
  exists c1 c' s',
    makeBuckets fuel c (slice_elems (c_files c)) = Returned c1 /\
    Compact fuel c s
      = Returned (c', map Report (map reported (bucket_runs c1 (c_buckets c1) s)),
                  s') /\
    map planned (bucket_runs c1 (c_buckets c1) s) = c_buckets c1 /\
    c_buckets c' = map finished (bucket_runs c1 (c_buckets c1) s) /\
    log s' = log s ++ concat (map made (bucket_runs c1 (c_buckets c1) s)) ++
             flat_map deletions_after (bucket_runs c1 (c_buckets c1) s) /\
    Forall (pass_ok (c_fs c)) (bucket_runs c1 (c_buckets c1) s).
Proof.
  intros Hfresh Hgate Hfuel.
  destruct (Compact_returns fuel c s Hgate Hfuel) as (c' & out & s' & E).
  destruct (Compact_open _ _ _ _ _ _ Hgate E)
    as (c1 & bs' & stats & s1 & Em & El & -> & -> & ->).
  destruct (makeBuckets_appends fuel c (slice_elems (c_files c)))
    as (new & Hc1 & _ & Hnew & _).
  rewrite Em in Hc1. cbn [reached] in Hc1.
  assert (Hf1 : Forall fresh (c_buckets c1)).
  { rewrite Hc1. cbn. apply Forall_app. auto. }
  assert (Hfs : c_fs c1 = c_fs c) by (rewrite Hc1; reflexivity).
  destruct (bucket_runs_loop c1 (c_buckets c1) s) as (Hp & Hb & Hr & Hl).
  pose proof (bucket_runs_pass c1 (c_buckets c1) Hf1 s) as Hpass.
  rewrite El in *. cbn [fst snd] in *. subst bs' stats.
  rewrite Hfs in Hpass.
  exists c1. eexists _, _. split; [exact Em|]. split; [exact E|].
  split; [exact Hp|]. cbn [with_buckets c_buckets]. split; [reflexivity|].
  split; [|exact Hpass].
  rewrite deleteProcessed_log, Hl, <- app_assoc. do 2 f_equal.
  clear - Hpass. induction Hpass as [|r rs Hr _ IH]; [reflexivity|].
  cbn [map flat_map]. rewrite IH. f_equal.
  destruct Hr as (_ & _ & _ & _ & _ & Hd & _). rewrite Hd. reflexivity.
Qed.

(** C6: if a file read, the creation of the new segment, the persisting
    of the filter or the closing of the writer fails while the worker is
    in [compactBucket] for an unprocessed bucket [b], the record returned
    for [b] carries an error, [b] stays unprocessed, and the worker goes
    on through every bucket after [b], returning one record for each. *)
Theorem compactBucket_failure_contained (c : Compactor)
    (pre post : list bucket) (b : bucket) (s : Sys)
    (bs1 : list bucket) (st1 : list compactionStats) (s1 : Sys)
    (b' : bucket) (cs : compactionStats) (s2 : Sys) (new : list event) :
  compactBuckets_from c pre s = (bs1, st1, s1) ->
  compactBucket c b s1 = (b', cs, s2) ->
  log s2 = log s1 ++ new ->
  existsb failed new = true ->
  b_processed b = false ->
  err cs <> None /\
  b_processed b' = false /\
  exists bs3 st3 s3,
    compactBuckets_from c post s2 = (bs3, st3, s3) /\
    length bs3 = length post /\
    length st3 = length post /\
    compactBuckets_from c (pre ++ b :: post) s =
      (bs1 ++ b' :: bs3, st1 ++ cs :: st3, s3).
Proof.
  intros Epre Eb Hlog Hfail Hfresh.
  destruct (compactBucket_spec c b s1) as (n & Hn & _ & _ & Hcase).
  rewrite Eb in *. cbn [fst snd] in *.
  assert (n = new) by (rewrite Hn in Hlog; eapply app_inv_head; eauto).
  subst n.
  destruct Hcase as [(_ & [e ->] & Hp)|(Hok & _)]; [|congruence].
  split; [discriminate|]. split; [congruence|].
  destruct (compactBuckets_from_spec c post s2) as (_ & _ & _ & Hlb & Hls & _ & _).
  destruct (compactBuckets_from c post s2) as [[bs3 st3] s3] eqn:Epost.
  cbn [fst snd] in *.
  exists bs3, st3, s3. repeat split; auto.
  rewrite compactBuckets_from_app, Epre, compactBuckets_from_cons, Eb, Epost.
  reflexivity.
Qed.

Lemma Compact_log fuel c s :
  exists work dels,
    log (snd (reached (Compact fuel c s))) = log s ++ work ++ dels /\
    Forall (worker_event (c_fs c)) work /\
    Forall (fun e => is_delete e = true) dels.
Proof.
  unfold Compact. destruct (shouldCompact c); cbn [negb].
  - destruct (makeBuckets_appends fuel c (slice_elems (c_files c)))
      as (new & Hc1 & _).
    destruct (makeBuckets fuel c (slice_elems (c_files c))) as [c1|c1];
      cbn [reached] in *.
    + unfold compactBuckets, bind, ret.
      destruct (compactBuckets_from_spec c1 (c_buckets c1) s)
        as (work & Hl & Hw & _).
      destruct (compactBuckets_from c1 (c_buckets c1) s) as [[bs' stats] s1].
      cbn [fst snd] in *. unfold deleteProcessedFiles.
      cbn [with_buckets c_fs c_buckets].
      pose proof (deleteProcessed_log (c_fs c1) bs' s1) as Hd.
      destruct (deleteProcessed (c_fs c1) bs' s1) as [u s2].
      cbn [fst snd reached] in *.
      exists work. eexists. rewrite Hd, Hl, <- app_assoc.
      split; [reflexivity|]. split.
      * rewrite Hc1 in Hw. exact Hw.
      * apply Forall_flat_map, Forall_forall. intros b _.
        destruct (b_processed b); [|constructor].
        apply Forall_map, Forall_forall. reflexivity.
    + exists [], []. cbn. rewrite app_nil_r. auto.
  - exists [], []. cbn. rewrite app_nil_r. auto.
Qed.

(** C10: whatever the path (and whatever the state of the world when it
    is called), [NewCompactor] builds the file system with
    [ReadOnly = false], [UseCompression = true], [SyncWrite = false];
    and in any later [Compact] on that compactor every segment is
    created on a file system carrying exactly these options and every
    writer is opened with compression on. *)
Theorem NewCompactor_fixed_options (p : string) (s0 s : Sys) (fuel : nat) :
  c_fs (NewCompactor p s0) = NewFS p (mkOptions false true false) /\
  options (c_fs (NewCompactor p s0)) = mkOptions false true false /\
  exists new,
    log (snd (reached (Compact fuel (NewCompactor p s0) s))) = log s ++ new /\
    Forall fixed_configuration new.
Proof.
  split; [reflexivity|]. split; [reflexivity|].
  destruct (Compact_log fuel (NewCompactor p s0) s)
    as (work & dels & Hl & Hw & Hd).
  exists (work ++ dels). split; [assumption|].
  apply Forall_app. split.
  - eapply Forall_impl; [|exact Hw].
    intros e. destruct e; cbn; auto. intros ->. reflexivity.
  - eapply Forall_impl; [|exact Hd].
    intros e. destruct e; cbn; auto; discriminate.
Qed.

End Run.

Lemma Compact_deletes_iff_no_error_witness :
  let c := NewCompactor "/db" Mem.s10 in
  exists c1 c' s',
    makeBuckets 10 c (slice_elems (c_files c)) = Returned c1 /\
    Compact 10 c Mem.s10
      = Returned (c', map Report
                        (map reported (bucket_runs c1 (c_buckets c1) Mem.s10)),
                  s') /\
    map planned (bucket_runs c1 (c_buckets c1) Mem.s10) = c_buckets c1 /\
    c_buckets c' = map finished (bucket_runs c1 (c_buckets c1) Mem.s10) /\
    log s' = log Mem.s10 ++
             concat (map made (bucket_runs c1 (c_buckets c1) Mem.s10)) ++
             flat_map deletions_after (bucket_runs c1 (c_buckets c1) Mem.s10) /\
    Forall (pass_ok (c_fs c)) (bucket_runs c1 (c_buckets c1) Mem.s10).
Proof.
  intros c.
  apply (Compact_deletes_iff_no_error 10 c Mem.s10).
  - constructor.
  - reflexivity.
  - unfold slice_len. cbn. lia.
Defined.

(** A run in which a read fails: B is missing, the one bucket stops at
    that read, nothing is written, the bucket stays unprocessed and no
    file is deleted. *)
Example Compact_missing_file :
  exists c' r s',
    Compact 3 (NewCompactor "/db" Mem.s3_missing) Mem.s3_missing
      = Returned (c', [Report r], s') /\
    c_buckets c' = [mkBucket ["A"; "B"; "C"] false] /\
    err r = Some "no such file" /\
    log s' = [EvReadFile "/db/A.db" None;
              EvReadFile "/db/B.db" (Some "no such file")].
Proof.
  eexists _, _, _. split; [vm_compute; reflexivity|]. repeat split.
Qed.

(** A second [Compact] on the compactor a first, successful [Compact]
    left behind: the first run leaves the bucket of A, B and C in
    [c.buckets], marked processed, and has deleted the three files; the
    second run plans the same three files again, compacts both buckets,
    and both fail on the first read.  Both records carry an error, yet
    [deleteProcessedFiles] calls [DeleteSSTable] on A, B and C for the
    old bucket, whose flag is still set.  The time sort of this store
    leaves A, B, C where they are, so [c.files] reads the same in both
    runs. *)
Lemma stale_bucket_deleted_despite_error :
  exists c1 out1 s1 c2 r1 r2 s2,
    Compact 3 (NewCompactor "/db" Mem.s3) Mem.s3 = Returned (c1, out1, s1) /\
    c1 = mkCompactor sample_fs (Some ["A"; "B"; "C"])
           [mkBucket ["A"; "B"; "C"] true] /\
    Compact 3 c1 s1 = Returned (c2, [Report r1; Report r2], s2) /\
    c_buckets c2 = [mkBucket ["A"; "B"; "C"] true;
                    mkBucket ["A"; "B"; "C"] false] /\
    err r1 = Some "no such file" /\
    err r2 = Some "no such file" /\
    calls_since s1 s2 =
      [EvReadFile "/db/A.db" (Some "no such file");
       EvReadFile "/db/A.db" (Some "no such file");
       EvDeleteSSTable "A"; EvDeleteSSTable "B"; EvDeleteSSTable "C"].
Proof.
  eexists _, _, _, _, _, _, _.
  split; [vm_compute; reflexivity|].
  split; [reflexivity|].
  split; [vm_compute; reflexivity|].
  repeat split.
Qed.

Lemma compactBucket_failure_contained_witness :
  let c := mkCompactor sample_fs None [] in
  let b := mkBucket ["A"; "B"] false in
  let post := [mkBucket ["A"; "C"] false] in
  exists b' cs s2,
    compactBucket c b Mem.s3_missing = (b', cs, s2) /\
    err cs <> None /\
    b_processed b' = false /\
    exists bs3 st3 s3,
      compactBuckets_from c post s2 = (bs3, st3, s3) /\
      length bs3 = length post /\
      length st3 = length post /\
      compactBuckets_from c ([] ++ b :: post) Mem.s3_missing =
        ([] ++ b' :: bs3, [] ++ cs :: st3, s3).
Proof.
  intros c b post. eexists _, _, _. split.
  - vm_compute. reflexivity.
  - apply (compactBucket_failure_contained c [] post b Mem.s3_missing
             [] [] Mem.s3_missing _ _ _
             [EvReadFile "/db/A.db" None;
              EvReadFile "/db/B.db" (Some "no such file")]).
    + reflexivity.
    + vm_compute. reflexivity.
    + reflexivity.
    + reflexivity.
    + reflexivity.
Defined.

(** ** The pipeline *)

Section PipelineFacts.

Context {B : Backend}.

Variable c : Compactor.

Lemma script_cons b rest s :
  script c (b :: rest) s =
  ActBegin b :: ActEnd (snd (fst (compactBucket c b s)))
    :: ActSend (snd (fst (compactBucket c b s)))
    :: script c rest (snd (compactBucket c b s)).
Proof.
  cbn [script]. destruct (compactBucket c b s) as [[b' cs] s']. reflexivity.
Qed.

Lemma filter_snoc {A} (f : A -> bool) l a :
  filter f (l ++ [a]) = filter f l ++ (if f a then [a] else []).
Proof. rewrite filter_app. reflexivity. Qed.

Ltac along_script :=
  left; rewrite filter_snoc; cbn [by_worker];
  unfold rest_script; cbn [p_worker p_todo p_sys];
  rewrite <- ?app_assoc, ?app_nil_r.

Lemma run_follows_script s t p :
  run c (start c s) t p ->
  follows_script c (script c (c_buckets c) s) t p.
Proof.
  induction 1 as [|t p a p' Hrun IH Hstep].
  - left. reflexivity.
  - destruct IH as [IH|(Hex & Hdone & _)].
    + inversion Hstep; subst; unfold rest_script in IH;
        cbn [p_worker p_todo p_sys] in IH.
      * along_script. rewrite script_cons in *. exact IH.
      * along_script. rewrite script_cons in IH. cbn [tl] in IH.
        match goal with H : compactBucket _ _ _ = _ |- _ => rewrite H in IH end.
        exact IH.
      * along_script. exact IH.
      * right. split; [reflexivity|]. split; [reflexivity|].
        exists (filter by_worker t), cs, (script c todo s0).
        rewrite filter_snoc. cbn [by_worker]. auto.
      * along_script. exact IH.
      * along_script. exact IH.
    + inversion Hstep; subst; cbn in Hex, Hdone; discriminate.
Qed.

Lemma sent_app t1 t2 : sent (t1 ++ t2) = sent t1 ++ sent t2.
Proof. apply flat_map_app. Qed.

Lemma sent_by_worker t : sent (filter by_worker t) = sent t.
Proof.
  unfold sent. induction t as [|a t IH]; [reflexivity|].
  destruct a; cbn; rewrite ?IH; reflexivity.
Qed.

Lemma sent_script bs :
  forall s, sent (script c bs s) = snd (fst (compactBuckets_from c bs s)).
Proof.
  induction bs as [|b rest IH]; intros s; [reflexivity|].
  rewrite script_cons, compactBuckets_from_cons.
  destruct (compactBucket c b s) as [[b' cs] s1]. cbn [fst snd].
  specialize (IH s1).
  destruct (compactBuckets_from c rest s1) as [[bs' css] s2].
  cbn [fst snd] in *. rewrite <- IH. reflexivity.
Qed.

Lemma prefix_firstn {A} (l1 l2 : list A) :
  exists k, l1 = firstn k (l1 ++ l2).
Proof.
  exists (length l1). rewrite firstn_app, Nat.sub_diag, firstn_all.
  cbn. rewrite app_nil_r. reflexivity.
Qed.

Lemma run_tracks_loop s t p :
  run c (start c s) t p ->
  p_finished p ++ fst (fst (rest_loop c p))
    = fst (fst (compactBuckets_from c (c_buckets c) s)) /\
  snd (rest_loop c p) = snd (compactBuckets_from c (c_buckets c) s) /\
  (p_worker p = Exited -> p_done p = false -> p_todo p = []).
Proof.
  induction 1 as [|t p a p' Hrun IH Hstep].
  - cbn. split; [reflexivity|]. split; [reflexivity|]. discriminate.
  - destruct IH as (IH1 & IH2 & IH3).
    inversion Hstep; subst; unfold rest_loop in *;
      cbn [p_worker p_todo p_sys p_finished p_done] in *.
    + split; [assumption|]. split; [assumption|]. discriminate.
    + rewrite compactBuckets_from_cons in IH1, IH2.
      match goal with H : compactBucket _ _ _ = _ |- _ => rewrite H in IH1, IH2 end.
      destruct (compactBuckets_from c todo s') as [[bs' css] s2].
      cbn [fst snd] in *. rewrite <- app_assoc.
      split; [assumption|]. split; [assumption|]. discriminate.
    + split; [assumption|]. split; [assumption|]. discriminate.
    + split; [assumption|]. split; [assumption|]. discriminate.
    + auto.
    + split; [assumption|]. split; [assumption|]. discriminate.
Qed.

End PipelineFacts.

Section PipelineClaims.

Context {B : Backend}.

Lemma run_trans c p0 t1 p1 t2 p2 :
  run c p0 t1 p1 -> run c p1 t2 p2 -> run c p0 (t1 ++ t2) p2.
Proof.
  intros H1 H2. induction H2 as [|t p a p' _ IH Hstep].
  - rewrite app_nil_r. assumption.
  - rewrite app_assoc. eapply run_snoc; eauto.
Qed.

(** Left alone by the caller and served by the consumer, the worker
    carries out its script to the end. *)
Lemma run_script c todo :
  forall d fin s,
  exists p,
    run c (mkPipeline AtRange d fin todo s) (script c todo s) p /\
    p_worker p = Exited /\ p_done p = d.
Proof.
  induction todo as [|b rest IH]; intros d fin s.
  - eexists. split.
    + eapply (run_snoc c _ [] _ ActCloseResults); [apply run_nil|].
      apply step_close_results.
    + split; reflexivity.
  - rewrite script_cons.
    destruct (compactBucket c b s) as [[b' cs] s'] eqn:E. cbn [fst snd].
    destruct (IH d (fin ++ [b']) s') as (p & Hrun & Hex & Hd).
    exists p. split; [|auto].
    eapply (run_trans c _ [ActBegin b; ActEnd cs; ActSend cs]);
      [|exact Hrun].
    eapply (run_snoc c _ [ActBegin b; ActEnd cs] _ (ActSend cs));
      [|apply step_send].
    eapply (run_snoc c _ [ActBegin b] _ (ActEnd cs));
      [|apply step_end; exact E].
    eapply (run_snoc c _ [] _ (ActBegin b)); [apply run_nil|].
    apply step_begin.
Qed.

(** C9: in every execution of the pipeline the records received by the
    consumer are, in order, an initial part of the records of
    [c.buckets] taken in planning order; the worker's own actions follow
    the script "enter compactBucket, return from it, send" bucket after
    bucket, so a bucket is entered only after the previous one has been
    completed and its record handed over; when the worker exits with
    [done] still open -- the only way [Compact] runs it -- every bucket
    has exactly one record, in order, and the pipeline leaves the
    buckets and the system as the sequential loop does; and such a
    complete execution exists. *)
Theorem results_in_bucket_order (c : Compactor) (s : Sys) :
  (forall t p,
     run c (start c s) t p ->
     (exists k,
        sent t = firstn k (snd (fst (compactBuckets_from c (c_buckets c) s)))) /\
     ((exists rest, script c (c_buckets c) s = filter by_worker t ++ rest) \/
      (exists pre cs rest,
         filter by_worker t = pre ++ [ActCancelled] /\
         script c (c_buckets c) s = pre ++ ActSend cs :: rest)) /\
     (p_worker p = Exited -> p_done p = false ->
      sent t = snd (fst (compactBuckets_from c (c_buckets c) s)) /\
      length (sent t) = length (c_buckets c) /\
      p_finished p = fst (fst (compactBuckets_from c (c_buckets c) s)) /\
      p_sys p = snd (compactBuckets_from c (c_buckets c) s))) /\
  (exists t p,
     run c (start c s) t p /\ p_worker p = Exited /\ p_done p = false).
Proof.
  split; [|destruct (run_script c (c_buckets c) false [] s) as (p & Hp); eauto].
  intros t p Hrun.
  pose proof (run_follows_script c s t p Hrun) as Hf.
  pose proof (sent_script c (c_buckets c) s) as Hs.
  split; [|split].
  - rewrite <- Hs.
    destruct Hf as [Hf|(_ & _ & pre & cs & rest & Ht & Hfull)].
    + rewrite <- Hf, sent_app, sent_by_worker. apply prefix_firstn.
    + rewrite Hfull, sent_app.
      assert (Hp : sent t = sent pre).
      { rewrite <- sent_by_worker, Ht, sent_app. cbn. apply app_nil_r. }
      rewrite Hp. apply prefix_firstn.
  - destruct Hf as [Hf|(_ & _ & pre & cs & rest & Ht & Hfull)]; eauto 6.
  - intros Hex Hopen.
    destruct Hf as [Hf|(_ & Hd & _)]; [|congruence].
    unfold rest_script in Hf. rewrite Hex, app_nil_r in Hf.
    assert (Hsent : sent t = snd (fst (compactBuckets_from c (c_buckets c) s))).
    { rewrite <- Hs, <- Hf. symmetry. apply sent_by_worker. }
    destruct (run_tracks_loop c s t p Hrun) as (H1 & H2 & H3).
    specialize (H3 Hex Hopen). unfold rest_loop in H1, H2.
    rewrite Hex, H3 in H1, H2. cbn in H1, H2. rewrite app_nil_r in H1.
    destruct (compactBuckets_from_spec c (c_buckets c) s)
      as (_ & _ & _ & _ & Hl & _).
    repeat split; congruence.
Qed.

Lemma pstep_done_stays c p a p' :
  pstep c p a p' -> p_done p = true -> p_done p' = true.
Proof. intros H. inversion H; subst; cbn; auto. Qed.

(** C8 (amended): once [done] is closed and as long as the consumer
    receives no further record, the worker begins at most one more
    bucket, and none if the signal came while it was inside
    [compactBucket] or waiting in its [select]; the [select] that
    follows the call in progress can take the done case; and when it
    does, the worker has exited without handing over that bucket's
    record, and this is its last action. *)
Theorem worker_stops_at_select (c : Compactor) (p0 : pipeline)
    (t : list action) (p : pipeline) :
  p_done p0 = true ->
  run c p0 t p ->
  existsb is_send t = false ->
  length (filter is_begin t) <= 1 /\
  (p_worker p0 <> AtRange -> filter is_begin t = []) /\
  (In ActCancelled t ->
   p_worker p = Exited /\ exists t', t = t' ++ [ActCancelled]) /\
  (forall cs, p_worker p = AtSelect cs ->
     exists p', pstep c p ActCancelled p' /\ p_worker p' = Exited).
Proof.
  intros Hdone Hrun.
  assert (Hinv :
    existsb is_send t = false ->
    p_done p = true /\
    (p_worker p = AtRange -> t = [] /\ p_worker p0 = AtRange) /\
    length (filter is_begin t) <= 1 /\
    (p_worker p0 <> AtRange -> filter is_begin t = []) /\
    (In ActCancelled t ->
     p_worker p = Exited /\ exists t', t = t' ++ [ActCancelled])).
  { induction Hrun as [|t p a p' Hrun IH Hstep]; intros Hns.
    - cbn. repeat split; auto; try contradiction.
    - rewrite existsb_app in Hns. apply orb_false_iff in Hns.
      destruct Hns as [Hns Ha]. cbn in Ha. rewrite orb_false_r in Ha.
      destruct (IH Hns) as (Hd & Hat & Hcount & Hbusy & Hcan). clear IH.
      split; [eapply pstep_done_stays; eauto|].
      rewrite filter_snoc.
      assert (Hlast : In ActCancelled (t ++ [a]) ->
                      p_worker p' = Exited /\
                      exists t', t ++ [a] = t' ++ [ActCancelled]).
      { intros Hin. apply in_app_or in Hin. destruct Hin as [Hin|Hin].
        - destruct (Hcan Hin) as [Hex _].
          inversion Hstep; subst; cbn in Hex, Hd; discriminate.
        - destruct Hin as [Ha'|[]]. subst a.
          inversion Hstep; subst. cbn. eauto. }
      clear Hcan.
      inversion Hstep; subst; cbn [is_begin is_send p_worker p_done] in *;
        rewrite ?app_nil_r; try discriminate;
        (split; [|split; [|split; [|exact Hlast]]]); try discriminate; auto.
      + destruct (Hat eq_refl) as [-> _]. cbn. lia.
      + destruct (Hat eq_refl) as [_ Hp0]. intros Hne. contradiction. }
  intros Hns. destruct (Hinv Hns) as (Hd & _ & Hcount & Hbusy & Hcan).
  split; [assumption|]. split; [assumption|]. split; [assumption|].
  intros cs Hsel. destruct p as [w d fin todo s]. cbn in *. subst.
  eexists. split; [apply step_cancelled|reflexivity].
Qed.

End PipelineClaims.

Example c10_buckets :
  c_buckets Mem.c10 =
  [mkBucket ["01"; "02"; "03"; "04"; "05"] false;
   mkBucket ["06"; "07"; "08"; "09"; "10"] false].
Proof. reflexivity. Qed.

Lemma results_in_bucket_order_witness :
  exists t p,
    run Mem.c3 (start Mem.c3 Mem.s3) t p /\
    p_worker p = Exited /\ p_done p = false /\
    (exists k,
       sent t = firstn k (snd (fst (compactBuckets_from Mem.c3
                                      (c_buckets Mem.c3) Mem.s3)))) /\
    sent t = snd (fst (compactBuckets_from Mem.c3 (c_buckets Mem.c3) Mem.s3)) /\
    length (sent t) = length (c_buckets Mem.c3).
Proof.
  eassert (Hr : run Mem.c3 (start Mem.c3 Mem.s3) _ _).
  { eapply run_snoc;
      [eapply run_snoc;
         [eapply run_snoc; [eapply run_snoc; [apply run_nil|]|]|]|].
    - apply step_begin.
    - eapply step_end. vm_compute. reflexivity.
    - apply step_send.
    - apply step_close_results. }
  eexists _, _. split; [exact Hr|].
  destruct (proj1 (results_in_bucket_order Mem.c3 Mem.s3) _ _ Hr)
    as (Hk & _ & Hall).
  destruct (Hall eq_refl eq_refl) as (H1 & H2 & _).
  repeat split; assumption.
Defined.

(** C8 fails as stated: the consumer receives the first bucket's record
    and closes [done] while the worker is back at the head of its loop;
    the worker then enters [compactBucket] for the second bucket. *)
Lemma bucket_begun_after_done_closed :
  ~ (forall t p,
       run Mem.c10 (start Mem.c10 Mem.s10) t p ->
       no_begin_after_close t = true).
Proof.
  intros H.
  eassert (Hr : run Mem.c10 (start Mem.c10 Mem.s10) _ _).
  { eapply run_snoc;
      [eapply run_snoc;
         [eapply run_snoc;
            [eapply run_snoc; [eapply run_snoc; [apply run_nil|]|]|]|]|].
    - apply step_begin.
    - eapply step_end. vm_compute. reflexivity.
    - apply step_send.
    - apply step_close_done.
    - apply step_begin. }
  apply H in Hr. vm_compute in Hr. discriminate Hr.
Qed.

Lemma worker_stops_at_select_witness :
  let b := mkBucket ["01"; "02"; "03"; "04"; "05"] false in
  let rest := [mkBucket ["06"; "07"; "08"; "09"; "10"] false] in
  let p0 := mkPipeline (InCompactBucket b) true [] rest Mem.s10 in
  exists t p,
    run Mem.c10 p0 t p /\
    In ActCancelled t /\
    length (filter is_begin t) <= 1 /\
    filter is_begin t = [] /\
    p_worker p = Exited /\
    p_todo p = rest.
Proof.
  intros b rest p0.
  eassert (Hr : run Mem.c10 p0 _ _).
  { eapply run_snoc; [eapply run_snoc; [apply run_nil|]|].
    - eapply step_end. vm_compute. reflexivity.
    - apply step_cancelled. }
  eexists _, _. split; [exact Hr|].
  destruct (worker_stops_at_select Mem.c10 p0 _ _ eq_refl Hr eq_refl)
    as (Hcount & Hbusy & Hcan & _).
  match type of Hr with
  | run _ _ ?t _ =>
      assert (Hin : In ActCancelled t)
        by (apply in_or_app; right; left; reflexivity)
  end.
  split; [exact Hin|]. split; [exact Hcount|].
  split; [apply Hbusy; discriminate|].
  split; [exact (proj1 (Hcan Hin))|reflexivity].
Defined.

(** * Further properties of compaction.go *)

(** ** The calls made for one bucket *)

Section BucketProtocol.

Context {B : Backend}.

(** X5: the outside calls one [compactBucket] makes always have one of
    five forms, fixed by where it stopped: reads of the bucket's files
    in sorted order up to the first failing read; all reads, then a
    failed segment creation; all reads, the segment and its writer, one
    [w.Set] per record of the merge of the contents just read, in merge
    order, then a failed filter write followed by the closing of the
    filter file; the same with a successful filter write and a failed
    [w.Close]; or the same with both succeeding.  The reads are those of
    the world the call was entered in, the error in the returned record
    is the error of the failing call, and it is nil only in the last
    form. *)
Theorem compactBucket_call_protocol (c : Compactor) (b : bucket) (s : Sys) :
  exists new,
    log (snd (compactBucket c b s)) = log s ++ new /\
    bucket_calls (c_fs c) (sortByTime (b_files b)) (world s) new
      (err (snd (fst (compactBucket c b s)))).
Proof. apply compactBucket_calls. Qed.

(** X6: the filter is handed to [WriteTo] at most once per bucket, and
    the keys it then holds are exactly the keys passed to [w.Set] for
    that bucket, in the same order: no written key is missing from the
    filter and no other key is in it. *)
Theorem filter_holds_written_keys (c : Compactor) (b : bucket) (s : Sys) :
  exists new,
    log (snd (compactBucket c b s)) = log s ++ new /\
    (filter_writes new = [] \/
     filter_writes new = [map fst (written new)]).
Proof.
  destruct (compactBucket_calls c b s) as (new & Hl & Hc).
  exists new. split; [assumption|].
  inversion Hc; subst; project_calls; rewrite ?app_nil_r; auto.
Qed.

(** X7: in one [compactBucket] at most one segment is created; the
    filter file is closed exactly as many times as a segment was created
    (once or never), and when it is, that is the last outside call; the
    writer is closed exactly when the filter was written successfully,
    so after a failed filter write the writer is left unclosed. *)
Theorem compactBucket_closes (c : Compactor) (b : bucket) (s : Sys) :
  exists new,
    log (snd (compactBucket c b s)) = log s ++ new /\
    occurrences is_created new <= 1 /\
    occurrences is_filterfile_close new = occurrences is_created new /\
    occurrences is_writer_close new = occurrences is_filter_written new /\
    (occurrences is_created new = 1 ->
     exists before, new = before ++ [EvFilterfileClose]).
Proof.
  destruct (compactBucket_calls c b s) as (new & Hl & Hc).
  exists new. split; [assumption|].
  inversion Hc; subst; (split; [|split; [|split]]);
    try (project_calls; rewrite ?app_nil_r; cbn;
         first [lia | reflexivity | discriminate]);
    intros _.
  - exists (merged_calls (c_fs c) (sortByTime (b_files b)) datas ++
            [EvFilterWriteTo (map fst (merge_of datas)) (Some e)]).
    rewrite <- !app_assoc. reflexivity.
  - exists (merged_calls (c_fs c) (sortByTime (b_files b)) datas ++
            [EvFilterWriteTo (map fst (merge_of datas)) None;
             EvWriterClose (Some e)]).
    rewrite <- !app_assoc. reflexivity.
  - exists (merged_calls (c_fs c) (sortByTime (b_files b)) datas ++
            [EvFilterWriteTo (map fst (merge_of datas)) None;
             EvWriterClose None]).
    unfold completed_calls. rewrite <- !app_assoc. reflexivity.
Qed.

End BucketProtocol.

(** ** The record and the bucket one compactBucket returns *)

Section BucketResult.

Context {B : Backend}.

Lemma keysSeen_range iters : (0 <= keysSeen iters < 2 ^ 64)%Z.
Proof.
  unfold keysSeen.
  assert (H : forall acc, (0 <= acc < 2 ^ 64)%Z ->
            (0 <= fold_left (fun n it => uint64 (n + numKeys it)) iters acc
               < 2 ^ 64)%Z).
  { induction iters as [|it iters IH]; intros acc Hacc; [assumption|].
    cbn [fold_left]. apply IH. unfold uint64.
    apply Z.mod_pos_bound. reflexivity. }
  apply H. split; [lia|reflexivity].
Qed.

Lemma compactBucket_cases (c : Compactor) (b : bucket) (s : Sys) :
  (exists e,
     fst (compactBucket c b s) =
     (mkBucket (sortByTime (b_files b)) (b_processed b), errStats e))
  \/
  (exists mi elapsed,
     fst (compactBucket c b s) =
     (mkBucket (sortByTime (b_files b)) true,
      mkStats (length (sortByTime (b_files b))) 1
        (keysSeen (sources mi)) (mi_numKeysAfterCompaction mi)
        elapsed None)).
Proof.
  destruct (compactBucket c b s) as [[b' cs] s'] eqn:E. cbn [fst].
  unfold compactBucket, bind, getTime in E. cbn [b_files b_processed] in E.
  destruct (readChunks (c_fs c) (sortByTime (b_files b)) [] s)
    as [[e|iters] s1].
  { inversion E; subst. eauto. }
  unfold newSSTable in E.
  destruct (NewSSTable (c_fs c) (world s1)) as [[e|sst] w2].
  { inversion E; subst. eauto. }
  unfold newWriter in E. cbn [world log] in E.
  match type of E with
  | context [mergeLoop ?w ?mi [] ?s2] =>
      destruct (mergeLoop w mi [] s2) as [[mi' filter] s3]
  end.
  unfold fWriteTo, fClose, wClose, ret in E.
  destruct (filterWriteTo filter sst (world s3)) as [[e|] w4].
  { inversion E; subst. eauto. }
  cbn [world log] in E.
  destruct (writerClose _ w4) as [[e|] w5].
  { inversion E; subst. eauto. }
  inversion E; subst. right. eauto.
Qed.

(** X8: whatever happens, [compactBucket] leaves the bucket's file list
    in the order of the time sort and never clears its [processed]
    flag.  A record with an error is the zero record apart from the
    error -- no file or key counts, no duration -- and the flag is then
    left as it was; a record without error reports one file after
    compaction, as many files before as the bucket holds, a key count
    below 2^64, and the flag is then set. *)
Theorem compactBucket_record (c : Compactor) (b : bucket) (s : Sys) :
  let b' := fst (fst (compactBucket c b s)) in
  let cs := snd (fst (compactBucket c b s)) in
  b_files b' = sortByTime (b_files b) /\
  (b_processed b = true -> b_processed b' = true) /\
  (forall e, err cs = Some e ->
     cs = mkStats 0 0 0 0 "" (Some e) /\ b_processed b' = b_processed b) /\
  (err cs = None ->
     numFilesAfterCompaction cs = 1 /\
     numFilesBeforeCompaction cs = length (b_files b') /\
     (0 <= numKeysBeforeCompaction cs < 2 ^ 64)%Z /\
     b_processed b' = true).
Proof.
  intros b' cs. subst b' cs.
  destruct (compactBucket_cases c b s) as [[e H]|(mi & el & H)];
    rewrite H; cbn [fst snd b_files b_processed err errStats
                    numFilesAfterCompaction numFilesBeforeCompaction
                    numKeysBeforeCompaction].
  - split; [reflexivity|]. split; [auto|]. split; [|discriminate].
    intros e' He. inversion He; subst. auto.
  - split; [reflexivity|]. split; [auto|]. split; [discriminate|].
    intros _. split; [reflexivity|]. split; [reflexivity|].
    split; [apply keysSeen_range|reflexivity].
Qed.

(** Which compactor the method is called on matters only through its
    file system. *)
Lemma compactBucket_fs (c1 c2 : Compactor) (b : bucket) (s : Sys) :
  c_fs c1 = c_fs c2 -> compactBucket c1 b s = compactBucket c2 b s.
Proof. intros H. unfold compactBucket. rewrite H. reflexivity. Qed.

End BucketResult.

(** ** More on the planner *)

Section PlannerShape.

Lemma concat_length_bounds (new : list bucket) :
  Forall in_bounds new ->
  minBucketSize * length new <= length (concat (map b_files new))
  /\ length (concat (map b_files new)) <= maxBucketSize * length new.
Proof.
  unfold in_bounds, minBucketSize, maxBucketSize.
  induction 1 as [|b new Hb _ IH]; cbn [map concat length]; [lia|].
  rewrite length_app. lia.
Qed.

(** X1: the number of buckets planned for [n >= minBucketSize] files
    lies between [n / maxBucketSize] rounded up and [n / minBucketSize]
    rounded down: [minBucketSize * k <= n <= maxBucketSize * k]. *)
Theorem makeBuckets_bucket_count (c : Compactor) (files : list string) :
  minBucketSize <= length files ->
  exists new,
    (forall fuel, length files <= fuel ->
       makeBuckets fuel c files =
       Returned (mkCompactor (c_fs c) (c_files c) (c_buckets c ++ new))) /\
    minBucketSize * length new <= length files <= maxBucketSize * length new.
Proof.
  intros Hmin.
  destruct (makeBuckets_total c files Hmin) as (new & E & Hc & Hb & _).
  exists new. split; [assumption|].
  rewrite <- Hc. apply concat_length_bounds. assumption.
Qed.

Lemma makeBuckets_from_four (fuel : nat) :
  forall c files,
    maxBucketSize / 2 <= length files ->
    exists new,
      c_buckets (reached (makeBuckets fuel c files)) = c_buckets c ++ new /\
      Forall (fun b => maxBucketSize / 2 <= length (b_files b)) new.
Proof.
  induction fuel as [|fuel IH]; intros c files Hlen.
  - exists []. rewrite makeBuckets_0, app_nil_r. auto.
  - rewrite makeBuckets_S.
    destruct ((minBucketSize <=? length files) &&
              (length files <=? maxBucketSize)) eqn:Hb.
    + exists [mkBucket files false]. cbn. split; [reflexivity|].
      constructor; [exact Hlen|constructor].
    + apply bounds_test_false in Hb.
      change (maxBucketSize / 2) with 4 in *.
      assert (Hlong : maxBucketSize < length files).
      { destruct Hb as [Hb|Hb]; [unfold minBucketSize in Hb; lia|assumption]. }
      destruct (halves_of_long _ Hlong) as (_ & _ & _ & _).
      assert (H1 : 4 <= length (firstn (length files / 2) files)).
      { rewrite length_firstn_half. unfold maxBucketSize in Hlong.
        pose proof (Nat.div_mod_eq (length files) 2).
        pose proof (Nat.mod_upper_bound (length files) 2). lia. }
      assert (H2 : 4 <= length (skipn (length files / 2) files)).
      { rewrite length_skipn_half. unfold maxBucketSize in Hlong.
        pose proof (Nat.div_mod_eq (length files) 2).
        pose proof (Nat.mod_upper_bound (length files) 2). lia. }
      destruct (IH c _ H1) as (n1 & E1 & F1).
      destruct (makeBuckets fuel c (firstn (length files / 2) files))
        as [c1|c1]; cbn [reached] in *.
      * destruct (IH c1 _ H2) as (n2 & E2 & F2).
        exists (n1 ++ n2). rewrite E2, E1, app_assoc.
        split; [reflexivity|]. apply Forall_app. auto.
      * exists n1. auto.
Qed.

(** X2: as soon as the list has more than [maxBucketSize] files -- and
    so is split at least once -- every bucket planned has at least
    [maxBucketSize / 2] files (four): buckets of two or three files are
    only ever planned for a whole list of two or three files. *)
Theorem makeBuckets_split_sizes (fuel : nat) (c : Compactor)
    (files : list string) :
  maxBucketSize < length files ->
  exists new,
    c_buckets (reached (makeBuckets fuel c files)) = c_buckets c ++ new /\
    Forall (fun b => maxBucketSize / 2 <= length (b_files b) <= maxBucketSize)
      new.
Proof.
  intros Hlong.
  destruct (makeBuckets_from_four fuel c files) as (new & E & Hfour).
  { change (maxBucketSize / 2) with 4. unfold maxBucketSize in Hlong. lia. }
  destruct (makeBuckets_appends fuel c files) as (new' & E' & Hb & _).
  rewrite E' in E. cbn [c_buckets] in E. apply app_inv_head in E. subst new'.
  exists new. rewrite E'. split; [reflexivity|].
  rewrite Forall_forall in *. intros b Hin.
  specialize (Hfour b Hin). specialize (Hb b Hin). unfold in_bounds in Hb. lia.
Qed.

(** X3: a list of more than [maxBucketSize] but at most
    [2 * maxBucketSize] files is planned as exactly two buckets, its
    first [len/2] files and the rest, so that the two sizes differ by at
    most one. *)
Theorem makeBuckets_two_halves (fuel : nat) (c : Compactor)
    (files : list string) :
  maxBucketSize < length files <= 2 * maxBucketSize ->
  2 <= fuel ->
  makeBuckets fuel c files =
    Returned (mkCompactor (c_fs c) (c_files c)
                (c_buckets c ++
                 [mkBucket (firstn (length files / 2) files) false;
                  mkBucket (skipn (length files / 2) files) false])) /\
  length (skipn (length files / 2) files)
    - length (firstn (length files / 2) files) <= 1 /\
  length (firstn (length files / 2) files)
    <= length (skipn (length files / 2) files).
Proof.
  intros [Hlong Hle] Hfuel.
  destruct fuel as [|[|fuel]]; try lia.
  pose proof (Nat.div_mod_eq (length files) 2) as Hd.
  pose proof (Nat.mod_upper_bound (length files) 2 ltac:(lia)) as Hm.
  unfold maxBucketSize in Hlong, Hle.
  split.
  - rewrite makeBuckets_S.
    assert (Hb : (minBucketSize <=? length files) &&
                 (length files <=? maxBucketSize) = false).
    { apply bounds_test_false. right. unfold maxBucketSize. lia. }
    rewrite Hb, makeBuckets_S.
    assert (H1 : (minBucketSize <=? length (firstn (length files / 2) files)) &&
                 (length (firstn (length files / 2) files) <=? maxBucketSize)
                 = true).
    { apply bounds_test. rewrite length_firstn_half.
      unfold minBucketSize, maxBucketSize. lia. }
    rewrite H1, makeBuckets_S.
    assert (H2 : (minBucketSize <=? length (skipn (length files / 2) files)) &&
                 (length (skipn (length files / 2) files) <=? maxBucketSize)
                 = true).
    { apply bounds_test. rewrite length_skipn_half.
      unfold minBucketSize, maxBucketSize. lia. }
    rewrite H2. unfold append_bucket. cbn [c_fs c_files c_buckets].
    rewrite <- app_assoc. reflexivity.
  - rewrite length_firstn_half, length_skipn_half. lia.
Qed.

End PlannerShape.

Lemma makeBuckets_bucket_count_witness :
  exists new,
    (forall fuel, length sample_files <= fuel ->
       makeBuckets fuel sample_compactor sample_files =
       Returned (mkCompactor sample_fs (Some sample_files) ([] ++ new))) /\
    minBucketSize * length new <= length sample_files
      <= maxBucketSize * length new.
Proof.
  apply (makeBuckets_bucket_count sample_compactor sample_files).
  unfold minBucketSize. cbn. lia.
Defined.

Lemma makeBuckets_split_sizes_witness :
  exists new,
    c_buckets (reached (makeBuckets 5 sample_compactor sample_files))
      = [] ++ new /\
    Forall (fun b => maxBucketSize / 2 <= length (b_files b) <= maxBucketSize)
      new.
Proof.
  apply (makeBuckets_split_sizes 5 sample_compactor sample_files).
  unfold maxBucketSize. cbn. lia.
Defined.

Lemma makeBuckets_two_halves_witness :
  makeBuckets 2 sample_compactor sample_files =
    Returned (mkCompactor sample_fs (Some sample_files)
                ([] ++
                 [mkBucket (firstn (length sample_files / 2) sample_files) false;
                  mkBucket (skipn (length sample_files / 2) sample_files) false]))
  /\
  length (skipn (length sample_files / 2) sample_files)
    - length (firstn (length sample_files / 2) sample_files) <= 1 /\
  length (firstn (length sample_files / 2) sample_files)
    <= length (skipn (length sample_files / 2) sample_files).
Proof.
  apply (makeBuckets_two_halves 2 sample_compactor sample_files).
  - unfold maxBucketSize. cbn. lia.
  - lia.
Defined.

(** ** Planning and compacting together *)

Section Whole.

Context {B : Backend}.

(** X4: with more than [minBucketSize] and at most [maxBucketSize]
    candidate files and no bucket yet, [Compact] plans a single bucket
    holding all the candidates, calls [compactBucket] on it once, prints
    its one record, and then deletes all of the bucket's files if the
    bucket ended processed and none otherwise. *)
Theorem Compact_single_bucket (fuel : nat) (c : Compactor) (s : Sys)
    (files : list string) :
  c_files c = Some files ->
  c_buckets c = [] ->
  minBucketSize < length files <= maxBucketSize ->
  1 <= fuel ->
  exists s',
    Compact fuel c s =
      Returned (with_buckets c [fst (fst (compactBucket c (mkBucket files false) s))],
                [Report (snd (fst (compactBucket c (mkBucket files false) s)))],
                s') /\
    log s' = log (snd (compactBucket c (mkBucket files false) s)) ++
             deletions_of (fst (fst (compactBucket c (mkBucket files false) s))).
Proof.
  intros Hfiles Hnone [Hmin Hmax] Hfuel.
  destruct fuel as [|fuel]; [lia|].
  unfold Compact, shouldCompact. rewrite Hfiles.
  assert (Hg : (minBucketSize <? length files) = true)
    by (apply Nat.ltb_lt; assumption).
  rewrite Hg. cbn [negb slice_elems]. rewrite makeBuckets_S.
  assert (Hb : (minBucketSize <=? length files) &&
               (length files <=? maxBucketSize) = true).
  { apply bounds_test. lia. }
  rewrite Hb. unfold compactBuckets, bind, ret, append_bucket.
  cbn [c_buckets c_fs c_files]. rewrite Hnone. cbn [app].
  rewrite compactBuckets_from_cons.
  match goal with
  | |- context [compactBucket (mkCompactor ?f ?l ?bs) ?b s] =>
      rewrite (compactBucket_fs (mkCompactor f l bs) c b s eq_refl)
  end.
  destruct (compactBucket c (mkBucket files false) s) as [[b' cs] s1].
  cbn [compactBuckets_from ret fst snd].
  unfold deleteProcessedFiles, with_buckets. cbn [c_fs c_buckets c_files].
  pose proof (deleteProcessed_log (c_fs c) [b'] s1) as Hd.
  destruct (deleteProcessed (c_fs c) [b'] s1) as [u s2]. cbn [snd] in Hd.
  exists s2. rewrite Hfiles. split; [reflexivity|].
  rewrite Hd. cbn [flat_map]. rewrite app_nil_r. reflexivity.
Qed.

(** X10: on a compactor without buckets, a [Compact] that passes the
    gate prints one record per planned bucket, and the number [k] of
    records for [n] candidate files satisfies
    [minBucketSize * k <= n <= maxBucketSize * k]: at least one record,
    at most [n / 2]. *)
Theorem Compact_report_count (fuel : nat) (c : Compactor) (s : Sys) :
  c_buckets c = [] ->
  shouldCompact c = true ->
  slice_len (c_files c) <= fuel ->
  exists c' stats s',
    Compact fuel c s = Returned (c', map Report stats, s') /\
    length (c_buckets c') = length stats /\
    minBucketSize * length stats <= slice_len (c_files c)
      <= maxBucketSize * length stats.
Proof.
  intros Hnone Hgate Hfuel.
  destruct (Compact_returns fuel c s Hgate Hfuel) as (c' & out & s' & E).
  destruct (Compact_open _ _ _ _ _ _ Hgate E)
    as (c1 & bs' & stats & s1 & Em & El & -> & -> & ->).
  pose proof (proj1 (shouldCompact_true_iff c) Hgate) as Hlen.
  unfold slice_len in *.
  destruct (makeBuckets_total c (slice_elems (c_files c)) ltac:(lia))
    as (new & Hm & Hcat & Hb & _).
  rewrite (Hm fuel Hfuel) in Em. inversion Em; subst c1; clear Em.
  cbn [c_buckets] in El. rewrite Hnone in El. cbn [app] in El.
  match type of El with
  | compactBuckets_from ?c1 _ _ = _ =>
      destruct (compactBuckets_from_spec c1 new s)
        as (_ & _ & _ & Hlb & Hls & _)
  end.
  rewrite El in Hlb, Hls. cbn [fst snd] in Hlb, Hls.
  exists (with_buckets (mkCompactor (c_fs c) (c_files c) (c_buckets c ++ new)) bs'),
         stats, (snd (deleteProcessed (c_fs c) bs' s1)).
  split; [exact E|]. cbn [with_buckets c_buckets].
  split; [congruence|].
  rewrite Hls, <- Hcat. apply concat_length_bounds. assumption.
Qed.

End Whole.

Lemma Compact_single_bucket_witness :
  let c := NewCompactor "/db" Mem.s3 in
  let r := compactBucket c (mkBucket ["A"; "B"; "C"] false) Mem.s3 in
  exists s',
    Compact 1 c Mem.s3 =
      Returned (with_buckets c [fst (fst r)], [Report (snd (fst r))], s') /\
    log s' = log (snd r) ++ deletions_of (fst (fst r)).
Proof.
  intros c r.
  apply (Compact_single_bucket 1 c Mem.s3 ["A"; "B"; "C"]).
  - reflexivity.
  - reflexivity.
  - unfold minBucketSize, maxBucketSize. cbn. lia.
  - lia.
Defined.

Lemma Compact_report_count_witness :
  let c := NewCompactor "/db" Mem.s10 in
  exists c' stats s',
    Compact 10 c Mem.s10 = Returned (c', map Report stats, s') /\
    length (c_buckets c') = length stats /\
    minBucketSize * length stats <= slice_len (c_files c)
      <= maxBucketSize * length stats.
Proof.
  intros c.
  apply (Compact_report_count 10 c Mem.s10).
  - reflexivity.
  - reflexivity.
  - unfold slice_len. cbn. lia.
Defined.

(** ** The pipeline, step by step *)

Section PipelinePrefix.

Context {B : Backend}.

Lemma skipn_step {A} (k : nat) :
  forall (l : list A) x rest,
    skipn k l = x :: rest ->
    firstn (S k) l = firstn k l ++ [x] /\ skipn (S k) l = rest.
Proof.
  induction k as [|k IH]; intros l x rest H.
  - cbn in H. subst l. auto.
  - destruct l as [|y l]; [discriminate|].
    cbn [skipn] in H. destruct (IH l x rest H) as [H1 H2].
    change (firstn (S (S k)) (y :: l)) with (y :: firstn (S k) l).
    rewrite H1. auto.
Qed.

Lemma sent_snoc t a :
  sent (t ++ [a]) = sent t ++ match a with ActSend cs => [cs] | _ => [] end.
Proof. rewrite sent_app. cbn. rewrite app_nil_r. reflexivity. Qed.

Lemma cancelled_snoc t a :
  existsb is_cancelled (t ++ [a]) = existsb is_cancelled t || is_cancelled a.
Proof. rewrite existsb_app. cbn. rewrite orb_false_r. reflexivity. Qed.

(** X11: at every point of every execution of the pipeline, the
    buckets the worker has finished, the records it has produced and
    the state of the system are exactly those of the sequential loop
    run on the first buckets of [c.buckets], as many as are finished; no
    bucket is skipped or taken twice.  The records produced are the
    records received, plus one the worker still holds when it waits in
    its [select], plus one lost for good when it left through the done
    case -- for a bucket that has nevertheless been compacted.  The done
    case is only ever the worker's exit. *)
Theorem pipeline_is_loop_prefix (c : Compactor) (s : Sys)
    (t : list action) (p : pipeline) :
  run c (start c s) t p ->
  exists pending,
    compactBuckets_from c (firstn (length (p_finished p)) (c_buckets c)) s
      = (p_finished p, sent t ++ pending, p_sys p) /\
    skipn (length (p_finished p)) (c_buckets c)
      = match p_worker p with
        | InCompactBucket b => b :: p_todo p
        | _ => p_todo p
        end /\
    match p_worker p with
    | AtSelect cs => pending = [cs]
    | Exited =>
        if existsb is_cancelled t then length pending = 1 else pending = []
    | _ => pending = []
    end /\
    (p_worker p <> Exited -> existsb is_cancelled t = false).
Proof.
  induction 1 as [|t p a p' Hrun IH Hstep].
  - exists []. cbn. repeat split; auto.
  - destruct IH as (pending & Hloop & Hskip & Hpend & Hflag).
    rewrite sent_snoc, cancelled_snoc.
    inversion Hstep; subst;
      cbn [p_worker p_finished p_todo p_sys p_done is_cancelled] in *;
      rewrite ?orb_false_r, ?app_nil_r.
    + subst pending. exists []. rewrite app_nil_r in *.
      repeat split; auto; try (intros _; apply Hflag; discriminate).
    + subst pending. rewrite app_nil_r in Hloop.
      destruct (skipn_step _ _ _ _ Hskip) as [Hf Hs].
      exists [cs]. rewrite length_app, Nat.add_comm. cbn [length Nat.add].
      rewrite Hf, compactBuckets_from_app, Hloop.
      rewrite compactBuckets_from_cons.
      match goal with H : compactBucket _ _ _ = _ |- _ => rewrite H end.
      cbn [compactBuckets_from ret].
      repeat split; auto; try (intros _; apply Hflag; discriminate).
    + subst pending. exists []. rewrite app_nil_r.
      repeat split; auto; try (intros _; apply Hflag; discriminate).
    + subst pending. exists [cs]. rewrite orb_true_r.
      repeat split; auto; try (intros Hne; contradiction).
    + subst pending. exists []. rewrite app_nil_r in *.
      rewrite (Hflag ltac:(discriminate)).
      repeat split; auto; try (intros Hne; contradiction).
    + exists pending. repeat split; auto.
Qed.

End PipelinePrefix.

Lemma pipeline_is_loop_prefix_witness :
  exists t p pending,
    run Mem.c10 (start Mem.c10 Mem.s10) t p /\
    existsb is_cancelled t = true /\
    compactBuckets_from Mem.c10
      (firstn (length (p_finished p)) (c_buckets Mem.c10)) Mem.s10
      = (p_finished p, sent t ++ pending, p_sys p) /\
    length (p_finished p) = 1 /\ sent t = [] /\ length pending = 1.
Proof.
  eassert (Hr : run Mem.c10 (start Mem.c10 Mem.s10) _ _).
  { eapply run_snoc;
      [eapply run_snoc;
         [eapply run_snoc; [eapply run_snoc; [apply run_nil|]|]|]|].
    - apply step_begin.
    - eapply step_end. vm_compute. reflexivity.
    - apply step_close_done.
    - apply step_cancelled. }
  destruct (pipeline_is_loop_prefix Mem.c10 Mem.s10 _ _ Hr)
    as (pending & Hloop & _ & Hpend & _).
  eexists _, _, pending. split; [exact Hr|].
  split; [reflexivity|]. split; [exact Hloop|].
  split; [reflexivity|]. split; [reflexivity|]. exact Hpend.
Defined.
